(** * Information Distillation Network: the graph built by [VSR/Models/Idn.py]

    The Python module builds a TensorFlow computation graph.  The embedding
    keeps the graph symbolic: a tensor is the expression that produced it,
    and the graph-building calls run in a state-and-exception monad over the
    default graph (layer counter and collections).  Static shape inference is
    followed on the number of axes and on the channel axis, the only axis
    the slicing, concatenation and residual addition of the distillation
    block act on.  Element types are recorded where the module names them
    (the label placeholder and its cast) but the library's checks on them are
    not followed, nor is the validity of scope names: the model returns
    wherever the program does, and may return where a check outside these
    makes the program raise. *)

From Stdlib Require Import ZArith PrimFloat.
From stdpp Require Import gmap strings list.

Local Open Scope Z_scope.
Set Warnings "-register-all,-inexact-float,-clear-no-such-hyp".

(** ** Tensors *)

Inductive dtype := uint8 | float32.

(** A tensor is the symbolic expression of the operation that returns it.
    [Conv2d] and [Conv2dTranspose] stand for the layers as every call site of
    the module configures them: [padding='same'], an l2 kernel regularizer of
    the given weight and the [he_normal] kernel initializer.  The [nat] is
    the identity of the variables (or placeholder) the call created. *)
Inductive Tensor :=
| Placeholder (id : nat) (dt : dtype) (shape : list (option Z))
| Conv2d (id : nat) (x : Tensor) (filters kernel_size : Z) (l2 : float)
| Conv2dTranspose (id : nat) (x : Tensor) (filters kernel_size strides : Z)
                  (l2 : float)
| LeakyRelu (x : Tensor) (alpha : float)
| SliceTo (x : Tensor) (stop : Z)          (* x[..., :stop]  *)
| SliceFrom (x : Tensor) (start : Z)       (* x[..., start:] *)
| Concat (x y : Tensor)                    (* tf.concat([x, y], axis=-1) *)
| Add (x y : Tensor)
| Cast (x : Tensor) (dt : dtype)
| L2 (id : nat) (l2 : float)               (* regularization loss of a kernel *)
| AddN (xs : list Tensor)
| MeanSquaredError (labels predictions : Tensor)
| AbsoluteDifference (labels predictions : Tensor)
| Psnr (a b : Tensor) (max_val : Z)
| Ssim (a b : Tensor) (max_val : Z)
| ReduceMean (x : Tensor).

(** Python's clamping of a slice bound [k] on an axis of length [n]. *)
Definition clamp (n k : Z) : Z :=
  if k <? 0 then Z.max (k + n) 0 else Z.min k n.

(** Broadcasting of two channel counts; [None] is an axis that is absent
    (a scalar) or not known statically, which is compatible with anything. *)
Definition broadcastable (a b : option Z) : bool :=
  match a, b with
  | Some n, Some m => (n =? m) || (n =? 1) || (m =? 1)
  | _, _ => true
  end.

Definition broadcast (a b : option Z) : option Z :=
  match a, b with
  | Some n, Some m => Some (if n =? 1 then m else n)
  | Some n, None => Some n
  | None, b => b
  end.

(** [assert_is_compatible_with] on the channel axis. *)
Definition compatible (a b : option Z) : bool :=
  match a, b with
  | Some n, Some m => n =? m
  | _, _ => true
  end.

(** The statically known size of the last axis of a feature map. *)
Fixpoint channels (t : Tensor) : option Z :=
  match t with
  | Placeholder _ _ shape => mjoin (last shape)
  | Conv2d _ _ filters _ _ => Some filters
  | Conv2dTranspose _ _ filters _ _ _ => Some filters
  | LeakyRelu x _ => channels x
  | SliceTo x stop => (λ n, clamp n stop) <$> channels x
  | SliceFrom x start => (λ n, n - clamp n start) <$> channels x
  | Concat x y => n ← channels x; m ← channels y; Some (n + m)
  | Add x y => broadcast (channels x) (channels y)
  | Cast x _ => channels x
  | _ => None
  end.

(** The statically known number of axes of a tensor. *)
Fixpoint rank (t : Tensor) : option nat :=
  match t with
  | Placeholder _ _ shape => Some (length shape)
  | Conv2d _ _ _ _ _ => Some 4%nat
  | Conv2dTranspose _ _ _ _ _ _ => Some 4%nat
  | LeakyRelu x _ => rank x
  | SliceTo x _ => rank x
  | SliceFrom x _ => rank x
  | Concat x _ => rank x
  | Add x y =>
      match rank x, rank y with
      | Some n, Some m => Some (n `max` m)%nat
      | _, _ => None
      end
  | Cast x _ => rank x
  | L2 _ _ => Some 0%nat
  | AddN xs => match xs with x :: _ => rank x | [] => None end
  | MeanSquaredError _ _ => Some 0%nat
  | AbsoluteDifference _ _ => Some 0%nat
  | Psnr a _ _ => (λ n, n - 3)%nat <$> rank a
  | Ssim a _ _ => (λ n, n - 3)%nat <$> rank a
  | ReduceMean _ => Some 0%nat
  end.

(** What a convolution layer accepts as its input: four axes, the last one
    of a known, positive size. *)
Definition layer_input_ok (x : Tensor) : bool :=
  match rank x, channels x with
  | Some 4%nat, Some c => 0 <? c
  | _, _ => false
  end.

(** A valid size for an axis of a layer's kernel or output: positive and
    within a signed 32-bit integer. *)
Definition dimension_ok (n : Z) : bool := (0 <? n) && (n <? 2 ^ 31).

(** [assert_is_compatible_with] of a prediction against a label of the
    form [[None, ..., None, c]]: the same number of axes and a compatible
    channel axis. *)
Definition compatible_with (predictions labels : Tensor) : bool :=
  match rank predictions, rank labels with
  | Some n, Some m => (n =? m)%nat
  | _, _ => true
  end && compatible (channels predictions) (channels labels).

(** ** The default graph and the builder monad

    An exception ends the run: the monad returns it alone, and says nothing
    about what had been built or appended before it was raised. *)

Inductive exn := IndexError | KeyError | ZeroDivisionError | ValueError.

Record Graph := {
  fresh : nat;                                (* next variable identity *)
  regularization_losses : list Tensor;        (* GraphKeys.REGULARIZATION_LOSSES *)
  losses : list Tensor;                       (* GraphKeys.LOSSES *)
  summaries : list (string * Tensor)          (* GraphKeys.SUMMARIES *)
}.

Definition M (A : Type) : Type := Graph → exn + (A * Graph).

Definition raise {A} (e : exn) : M A := λ _, inl e.

#[global] Instance M_ret : MRet M := λ A x g, inr (x, g).
#[global] Instance M_bind : MBind M := λ A B f m g,
  match m g with
  | inl e => inl e
  | inr (x, g') => f x g'
  end.

(** [for x in xs: acc = body(acc, x)] *)
Fixpoint for_each {A B} (body : A → B → M A) (xs : list B) (acc : A) : M A :=
  match xs with
  | [] => mret acc
  | x :: xs' => acc' ← body acc x; for_each body xs' acc'
  end.

(** [for _ in range(n): acc = body(acc)] *)
Fixpoint for_range {A} (n : nat) (body : A → M A) (acc : A) : M A :=
  match n with
  | O => mret acc
  | S n' => acc' ← body acc; for_range n' body acc'
  end.

(** [with tf.name_scope(name): body].  A name scope only prefixes the names
    of the operations created inside it; tensors here carry no names. *)
Definition name_scope {A} (name : string) (body : M A) : M A := body.

(** [a // b] on Python integers. *)
Definition floordiv (a b : Z) : M Z :=
  if b =? 0 then raise ZeroDivisionError else mret (a / b).

(** [xs[-1]] *)
Definition last_item {A} (xs : list A) : M A :=
  match last xs with
  | Some x => mret x
  | None => raise IndexError
  end.

(** [m[k]] on a dict *)
Definition getitem (m : gmap string Tensor) (k : string) : M Tensor :=
  match m !! k with
  | Some v => mret v
  | None => raise KeyError
  end.

(** ** The TensorFlow calls the module makes *)

Definition with_layer (g : Graph) (l2 : float) : Graph :=
  {| fresh := S (fresh g);
     regularization_losses := regularization_losses g ++ [L2 (fresh g) l2];
     losses := losses g;
     summaries := summaries g |}.

(** [tf.layers.conv2d(x, filters, kernel_size, padding='same', ...)]: the
    input must have four axes and a known, positive number of channels, and
    the number of filters must be a valid dimension; the layer's kernel
    regularization loss joins the graph's collection.  The element type of
    the input is not followed. *)
Definition conv2d (x : Tensor) (filters kernel_size : Z) (l2 : float)
  : M Tensor := λ g,
  if layer_input_ok x && dimension_ok filters
  then inr (Conv2d (fresh g) x filters kernel_size l2, with_layer g l2)
  else inl ValueError.

(** [tf.layers.conv2d_transpose(x, filters, kernel_size, strides=strides,
    padding='same', ...)], checked like [conv2d]; the stride must be
    positive. *)
Definition conv2d_transpose (x : Tensor) (filters kernel_size strides : Z)
                            (l2 : float) : M Tensor := λ g,
  if layer_input_ok x && dimension_ok filters && (0 <? strides)
  then inr (Conv2dTranspose (fresh g) x filters kernel_size strides l2,
            with_layer g l2)
  else inl ValueError.

Definition leaky_relu (x : Tensor) (alpha : float) : Tensor := LeakyRelu x alpha.

(** [x + y] on tensors: [tf.add], with broadcasting. *)
Definition add (x y : Tensor) : M Tensor :=
  if broadcastable (channels x) (channels y) then mret (Add x y)
  else raise ValueError.

Definition concat (x y : Tensor) : Tensor := Concat x y.

Definition placeholder (dt : dtype) (shape : list (option Z)) : M Tensor := λ g,
  inr (Placeholder (fresh g) dt shape,
       {| fresh := S (fresh g);
          regularization_losses := regularization_losses g;
          losses := losses g;
          summaries := summaries g |}).

Definition cast (x : Tensor) (dt : dtype) : Tensor := Cast x dt.

Definition add_loss (t : Tensor) : M Tensor := λ g,
  inr (t, {| fresh := fresh g;
             regularization_losses := regularization_losses g;
             losses := losses g ++ [t];
             summaries := summaries g |}).

(** [tf.losses.mean_squared_error(labels, predictions)] *)
Definition mean_squared_error (labels predictions : Tensor) : M Tensor :=
  if compatible_with predictions labels
  then add_loss (MeanSquaredError labels predictions)
  else raise ValueError.

(** [tf.losses.absolute_difference(labels, predictions)] *)
Definition absolute_difference (labels predictions : Tensor) : M Tensor :=
  if compatible_with predictions labels
  then add_loss (AbsoluteDifference labels predictions)
  else raise ValueError.

Definition get_regularization_losses : M (list Tensor) := λ g,
  inr (regularization_losses g, g).

(** [tf.add_n(xs)] rejects an empty list. *)
Definition add_n (xs : list Tensor) : M Tensor :=
  match xs with
  | [] => raise ValueError
  | _ => mret (AddN xs)
  end.

(** [tf.summary.scalar(name, tensor)] *)
Definition summary_scalar (name : string) (t : Tensor) : M unit := λ g,
  inr (tt, {| fresh := fresh g;
              regularization_losses := regularization_losses g;
              losses := losses g;
              summaries := summaries g ++ [(name, t)] |}).

(** ** The model class *)

Section Model.

(** What the base class [SuperResolution] (not part of this module) leaves
    open: the type of its [learning_rate], its keyword arguments, its
    constructor and its [build_graph]. *)
Variable LearningRate : Type.
Variable Kwargs : Type.

Inductive Optimizer := AdamOptimizer (learning_rate : LearningRate).
Inductive Operation := Minimize (optimizer : Optimizer) (objective : Tensor).

Definition minimize (optimizer : Optimizer) (objective : Tensor) : Operation :=
  Minimize optimizer objective.

(** Modelled from the spec: the attributes the abstract [SuperResolution]
    base class supplies ([inputs_preproc], [outputs], [label], [loss],
    [metrics], [learning_rate]), together with the [scale] its constructor
    receives. *)
Record SuperResolution := {
  scale : Z;
  inputs_preproc : list Tensor;
  outputs : list Tensor;
  label : list Tensor;
  loss : list Operation;
  metrics : gmap string Tensor;
  learning_rate : LearningRate
}.

Variable super_init : Z → Kwargs → SuperResolution.
Variable super_build_graph : SuperResolution → M SuperResolution.

(** [self]: the attributes set by [__init__] on top of the base object. *)
Record Idn := {
  base : SuperResolution;
  blocks : Z;
  D : Z;
  d : Z;
  s : Z;
  leaky_slope : float;
  weight_decay : float;
  fine_tune : bool;
  name : string
}.

Definition with_base (self : Idn) (b : SuperResolution) : Idn :=
  {| base := b; blocks := blocks self; D := D self; d := d self; s := s self;
     leaky_slope := leaky_slope self; weight_decay := weight_decay self;
     fine_tune := fine_tune self; name := name self |}.

(** [self.outputs.append(x)] *)
Definition outputs_append (self : Idn) (x : Tensor) : Idn :=
  let b := base self in
  with_base self
    {| scale := scale b; inputs_preproc := inputs_preproc b;
       outputs := outputs b ++ [x]; label := label b; loss := loss b;
       metrics := metrics b; learning_rate := learning_rate b |}.

(** [self.outputs = xs] *)
Definition outputs_assign (self : Idn) (xs : list Tensor) : Idn :=
  let b := base self in
  with_base self
    {| scale := scale b; inputs_preproc := inputs_preproc b;
       outputs := xs; label := label b; loss := loss b;
       metrics := metrics b; learning_rate := learning_rate b |}.

(** [self.label.append(x)] *)
Definition label_append (self : Idn) (x : Tensor) : Idn :=
  let b := base self in
  with_base self
    {| scale := scale b; inputs_preproc := inputs_preproc b;
       outputs := outputs b; label := label b ++ [x]; loss := loss b;
       metrics := metrics b; learning_rate := learning_rate b |}.

(** [self.loss.append(op)] *)
Definition loss_append (self : Idn) (op : Operation) : Idn :=
  let b := base self in
  with_base self
    {| scale := scale b; inputs_preproc := inputs_preproc b;
       outputs := outputs b; label := label b; loss := loss b ++ [op];
       metrics := metrics b; learning_rate := learning_rate b |}.

(** [self.metrics[k] = v] *)
Definition metrics_setitem (self : Idn) (k : string) (v : Tensor) : Idn :=
  let b := base self in
  with_base self
    {| scale := scale b; inputs_preproc := inputs_preproc b;
       outputs := outputs b; label := label b; loss := loss b;
       metrics := <[k := v]> (metrics b); learning_rate := learning_rate b |}.

(** [__init__]; an argument left out ([None]) takes the default of the
    signature. *)
Definition __init__ (scale : Z) (blocks filters delta slice_factor : option Z)
    (leaky_slope weight_decay : option float) (fine_tune : option bool)
    (name : option string) (kwargs : Kwargs) : Idn :=
  {| blocks := default 4 blocks;
     D := default 64 filters;
     d := default 16 delta;
     s := default 4 slice_factor;
     leaky_slope := default 0.05%float leaky_slope;
     weight_decay := default 1e-4%float weight_decay;
     fine_tune := default false fine_tune;
     name := default "idn"%string name;
     base := super_init scale kwargs |}.

(** One [conv2d] followed by [leaky_relu], the body of both loops of
    [_make_idn]. *)
Definition conv_relu (self : Idn) (x : Tensor) (_D : Z) : M Tensor :=
  x ← conv2d x _D 3 (weight_decay self);
  mret (leaky_relu x (leaky_slope self)).

Definition _make_idn (self : Idn) (inputs : Tensor) (D3 d s : Z) : M Tensor :=
  let D1 := D3 - d in
  let D2 := D1 - d in
  let D4 := D3 in
  let D5 := D4 - d in
  let D6 := D4 + d in
  let D := [D1; D2; D3; D4; D5; D6] in
  x ← name_scope "enhancement" (
    let x := inputs in
    x ← for_each (conv_relu self) (take 3 D) x;
    k ← floordiv D3 s;
    let R := SliceTo x k in
    k ← floordiv D3 s;
    let P2 := SliceFrom x k in
    let x := P2 in
    x ← for_each (conv_relu self) (drop 3 D) x;
    add x (concat inputs R));
  name_scope "compression" (conv2d x D3 1 (weight_decay self)).

Definition build_graph (self : Idn) : M Idn :=
  name_scope (name self) (
    b ← super_build_graph (base self);
    let self := with_base self b in
    x ← last_item (inputs_preproc (base self));
    x ← name_scope "feature_blocks" (
      x ← conv2d x (D self) 3 (weight_decay self);
      let x := leaky_relu x (leaky_slope self) in
      x ← conv2d x (D self) 3 (weight_decay self);
      mret (leaky_relu x (leaky_slope self)));
    x ← name_scope "distillation_blocks" (
      for_range (Z.to_nat (blocks self))
        (λ x, _make_idn self x (D self) (d self) (s self)) x);
    x ← name_scope "reconstruction" (
      conv2d_transpose x 1 17 (scale (base self)) (weight_decay self));
    mret (outputs_append self x)).

Definition build_loss (self : Idn) : M Idn :=
  name_scope "loss" (
    p ← placeholder uint8 [None; None; None; Some 1];
    let self := label_append self p in
    l ← last_item (label (base self));
    let y_true := cast l float32 in
    y_pred ← last_item (outputs (base self));
    mse ← mean_squared_error y_true y_pred;
    mae ← absolute_difference y_true y_pred;
    rs ← get_regularization_losses;
    regular_loss ← add_n rs;
    loss ← (if fine_tune self then add mae regular_loss
            else add mse regular_loss);
    let optimizer := AdamOptimizer (learning_rate (base self)) in
    let self := loss_append self (minimize optimizer loss) in
    let self := metrics_setitem self "mse" mse in
    let self := metrics_setitem self "mae" mae in
    let self := metrics_setitem self "regularization" regular_loss in
    let self := metrics_setitem self "psnr" (Psnr y_true y_pred 255) in
    let self := metrics_setitem self "ssim" (Ssim y_true y_pred 255) in
    mret self).

Definition build_summary (self : Idn) : M Idn :=
  mse ← getitem (metrics (base self)) "mse";
  _ ← summary_scalar "loss/mse" mse;
  mae ← getitem (metrics (base self)) "mae";
  _ ← summary_scalar "loss/mae" mae;
  reg ← getitem (metrics (base self)) "regularization";
  _ ← summary_scalar "loss/weight" reg;
  psnr ← getitem (metrics (base self)) "psnr";
  _ ← summary_scalar "metric/psnr" (ReduceMean psnr);
  ssim ← getitem (metrics (base self)) "ssim";
  _ ← summary_scalar "metric/ssim" (ReduceMean ssim);
  mret self.

(** The class body: the methods the class statement defines, by name. *)
Inductive method :=
| Constructor (f : Z → option Z → option Z → option Z → option Z →
                   option float → option float → option bool →
                   option string → Kwargs → Idn)
| Hook (f : Idn → M Idn)
| Helper (f : Idn → Tensor → Z → Z → Z → M Tensor).

Definition InformationDistillationNetwork : list (string * method) :=
  [ ("__init__", Constructor __init__);
    ("build_graph", Hook build_graph);
    ("build_loss", Hook build_loss);
    ("build_summary", Hook build_summary);
    ("_make_idn", Helper _make_idn) ]%string.

End Model.

Arguments AdamOptimizer {LearningRate} _.
Arguments Minimize {LearningRate} _ _.
Arguments minimize {LearningRate} _ _.
Arguments Build_SuperResolution {LearningRate} _ _ _ _ _ _ _.
Arguments scale {LearningRate} _.
Arguments inputs_preproc {LearningRate} _.
Arguments outputs {LearningRate} _.
Arguments label {LearningRate} _.
Arguments loss {LearningRate} _.
Arguments metrics {LearningRate} _.
Arguments learning_rate {LearningRate} _.
Arguments Build_Idn {LearningRate} _ _ _ _ _ _ _ _ _.
Arguments base {LearningRate} _.
Arguments blocks {LearningRate} _.
Arguments D {LearningRate} _.
Arguments d {LearningRate} _.
Arguments s {LearningRate} _.
Arguments leaky_slope {LearningRate} _.
Arguments weight_decay {LearningRate} _.
Arguments fine_tune {LearningRate} _.
Arguments name {LearningRate} _.
Arguments with_base {LearningRate} _ _.
Arguments outputs_append {LearningRate} _ _.
Arguments outputs_assign {LearningRate} _ _.
Arguments label_append {LearningRate} _ _.
Arguments loss_append {LearningRate} _ _.
Arguments metrics_setitem {LearningRate} _ _ _.
Arguments __init__ {LearningRate Kwargs} _ _ _ _ _ _ _ _ _ _ _.
Arguments conv_relu {LearningRate} _ _ _.
Arguments _make_idn {LearningRate} _ _ _ _ _.
Arguments build_graph {LearningRate} _ _.
Arguments build_loss {LearningRate} _.
Arguments build_summary {LearningRate} _.
Arguments Constructor {LearningRate Kwargs} _.
Arguments Hook {LearningRate Kwargs} _.
Arguments Helper {LearningRate Kwargs} _.
Arguments InformationDistillationNetwork {LearningRate Kwargs} _ _.

(** [self.fine_tune = b] *)
Definition fine_tune_assign {LearningRate} (self : Idn LearningRate)
    (b : bool) : Idn LearningRate :=
  {| base := base self; blocks := blocks self; D := D self; d := d self;
     s := s self; leaky_slope := leaky_slope self;
     weight_decay := weight_decay self; fine_tune := b; name := name self |}.

(** [self.blocks = n] *)
Definition blocks_assign {LearningRate} (self : Idn LearningRate)
    (n : Z) : Idn LearningRate :=
  {| base := base self; blocks := n; D := D self; d := d self;
     s := s self; leaky_slope := leaky_slope self;
     weight_decay := weight_decay self; fine_tune := fine_tune self;
     name := name self |}.

(** [self.d = delta; self.s = slice_factor] *)
Definition block_parameters_assign {LearningRate} (self : Idn LearningRate)
    (delta slice_factor : Z) : Idn LearningRate :=
  {| base := base self; blocks := blocks self; D := D self; d := delta;
     s := slice_factor; leaky_slope := leaky_slope self;
     weight_decay := weight_decay self; fine_tune := fine_tune self;
     name := name self |}.

(** Whether a run returned rather than raised. *)
Definition returns {A} (r : exn + A) : bool :=
  match r with inr _ => true | inl _ => false end.

(** A name looked up in a class body. *)
Fixpoint class_lookup {A} (body : list (string * A)) (name : string)
  : option A :=
  match body with
  | [] => None
  | (n, m) :: body' =>
      if decide (n = name) then Some m else class_lookup body' name
  end.

(** Attribute lookup on an instance, along the method resolution order:
    the body of its class first, then that of the base class. *)
Definition resolve {A} (body base_body : list (string * A)) (name : string)
  : option A :=
  match class_lookup body name with
  | Some m => Some m
  | None => class_lookup base_body name
  end.

(** Modelled from the spec: the inheritance hooks through which a model
    plugs into the lifecycle of the base framework. *)
Definition lifecycle_hooks : list string :=
  ["build_graph"; "build_loss"; "build_summary"]%string.

(** ** The graph in closed form

    What the builder constructs, written as expressions. *)

(** A 3x3 convolution followed by leaky ReLU. *)
Definition conv3x3 (l2 alpha : float) (id : nat) (x : Tensor) (filters : Z)
  : Tensor :=
  LeakyRelu (Conv2d id x filters 3 l2) alpha.

(** The enhancement sub-block on the six layers [id .. id + 5]. *)
Definition enhancement (l2 alpha : float) (id : nat) (inputs : Tensor)
    (D3 d s : Z) : Tensor :=
  let c := conv3x3 l2 alpha in
  let x3 := c (2 + id)%nat (c (1 + id)%nat (c id inputs (D3 - d)) (D3 - d - d)) D3 in
  let R := SliceTo x3 (D3 / s) in
  let P2 := SliceFrom x3 (D3 / s) in
  Add (c (5 + id)%nat (c (4 + id)%nat (c (3 + id)%nat P2 D3) (D3 - d)) (D3 + d))
      (Concat inputs R).

(** The distillation block: enhancement, then the 1x1 compression. *)
Definition distillation_block (l2 alpha : float) (id : nat) (inputs : Tensor)
    (D3 d s : Z) : Tensor :=
  Conv2d (6 + id)%nat (enhancement l2 alpha id inputs D3 d s) D3 1 l2.

(** The graph after [n] more layers of regularization weight [l2]. *)
Fixpoint with_layers (n : nat) (g : Graph) (l2 : float) : Graph :=
  match n with
  | O => g
  | S n' => with_layers n' (with_layer g l2) l2
  end.

(** [n] successive distillation blocks lead from [x] to [y]. *)
Fixpoint stacked_blocks (l2 alpha : float) (n : nat) (id : nat) (x : Tensor)
    (D3 d s : Z) : Tensor :=
  match n with
  | O => x
  | S n' =>
      stacked_blocks l2 alpha n' (7 + id)%nat
        (distillation_block l2 alpha id x D3 d s) D3 d s
  end.

(** The feature-extraction stage on the two layers [id], [id + 1]. *)
Definition feature_extraction (l2 alpha : float) (id : nat) (x : Tensor)
    (filters : Z) : Tensor :=
  LeakyRelu (Conv2d (1 + id)%nat (LeakyRelu (Conv2d id x filters 3 l2) alpha)
                    filters 3 l2) alpha.

(** The whole network on the layers [id ..]: feature extraction, [n]
    distillation blocks, and the transposed convolution that upsamples. *)
Definition idn_graph (l2 alpha : float) (id : nat) (x : Tensor)
    (filters d s : Z) (n : nat) (scale : Z) : Tensor :=
  Conv2dTranspose (2 + 7 * n + id)%nat
    (stacked_blocks l2 alpha n (2 + id)%nat
       (feature_extraction l2 alpha id x filters) filters d s)
    1 17 scale l2.

(** [layer_input_ok] and [dimension_ok] as propositions. *)
Definition layer_input (x : Tensor) : Prop :=
  rank x = Some 4%nat ∧ ∃ c, channels x = Some c ∧ 0 < c.

Definition dimension (n : Z) : Prop := 0 < n < 2 ^ 31.

(** The parameters with which a block on a [D3]-channel input is built:
    valid convolution widths, a slice factor other than zero that leaves
    the remainder at least one channel, and a residual addition that
    broadcasts. *)
Definition block_builds (D3 d s : Z) : Prop :=
  dimension (D3 - d) ∧ dimension (D3 - d - d) ∧ dimension D3 ∧ s ≠ 0 ∧
  0 < D3 - clamp D3 (D3 / s) ∧ dimension (D3 + d) ∧
  broadcastable (Some (D3 + d)) (Some (D3 + clamp D3 (D3 / s))) = true.

(** ** A sample base class

    A stand-in for the framework, used to run the model on concrete
    inputs: its [build_graph] feeds one single-channel float image. *)

Definition sample_init (scale : Z) (kwargs : unit) : SuperResolution float :=
  {| scale := scale; inputs_preproc := []; outputs := []; label := [];
     loss := []; metrics := ∅; learning_rate := 1e-4%float |}.

Definition sample_build_graph (b : SuperResolution float)
  : M (SuperResolution float) :=
  p ← placeholder float32 [None; None; None; Some 1];
  mret {| scale := scale b; inputs_preproc := inputs_preproc b ++ [p];
          outputs := outputs b; label := label b; loss := loss b;
          metrics := metrics b; learning_rate := learning_rate b |}.

Definition empty_graph : Graph :=
  {| fresh := 0; regularization_losses := []; losses := []; summaries := [] |}.

(** A feature map of [c] channels to feed a block with. *)
Definition sample_features (c : Z) : Tensor :=
  Placeholder 0 float32 [None; None; None; Some c].

(** The model with every argument but [scale] left to its default. *)
Definition default_idn (scale : Z) : Idn float :=
  __init__ sample_init scale None None None None None None None None tt.

(** A model that already has an output, and a graph that already holds a
    layer, to build a loss on. *)
Definition sample_output : Tensor :=
  Conv2dTranspose 0 (sample_features 64) 1 17 2 (weight_decay (default_idn 2)).

Definition sample_with_output : Idn float :=
  outputs_append (default_idn 2) sample_output.

Definition sample_graph : Graph :=
  with_layer empty_graph (weight_decay (default_idn 2)).

(** A model whose five metrics are set, to publish summaries of. *)
Definition sample_with_metrics : Idn float :=
  let y := sample_output in
  let self := metrics_setitem sample_with_output "mse" (MeanSquaredError y y) in
  let self := metrics_setitem self "mae" (AbsoluteDifference y y) in
  let self := metrics_setitem self "regularization" (AddN [L2 0 0%float]) in
  let self := metrics_setitem self "psnr" (Psnr y y 255) in
  metrics_setitem self "ssim" (Ssim y y 255).

(** The keys [build_loss] stores in [metrics]. *)
Definition loss_metrics : gset string :=
  {[ "mse"; "mae"; "regularization"; "psnr"; "ssim" ]}%string.

(** ** Reasoning about the builder monad *)

Lemma bind_inr {A B} (m : M A) (f : A → M B) g r :
  (m ≫= f) g = inr r ↔ ∃ x g1, m g = inr (x, g1) ∧ f x g1 = inr r.
Proof.
  unfold mbind, M_bind. destruct (m g) as [e|[x g1]]; split.
  - discriminate.
  - intros (? & ? & ? & ?); discriminate.
  - eauto.
  - intros (? & ? & [= <- <-] & ?); done.
Qed.

Lemma bind_inl {A B} (m : M A) (f : A → M B) g e :
  m g = inl e → (m ≫= f) g = inl e.
Proof. unfold mbind, M_bind. by intros ->. Qed.

Lemma bind_eq {A B} (m : M A) (f : A → M B) g x g1 :
  m g = inr (x, g1) → (m ≫= f) g = f x g1.
Proof. unfold mbind, M_bind. by intros ->. Qed.

Lemma mret_inr {A} (x : A) g y g' :
  mret (M := M) x g = inr (y, g') ↔ y = x ∧ g' = g.
Proof. unfold mret, M_ret. split; [intros [= <- <-]|intros [-> ->]]; done. Qed.

Lemma clamp_bounds n k : 0 ≤ n → 0 ≤ clamp n k ≤ n.
Proof. unfold clamp. destruct (Z.ltb_spec k 0); lia. Qed.

(** The size of [x[..., :a // b]] on an axis of length [a]. *)
Lemma retained_size a b :
  0 ≤ a → b ≠ 0 →
  (0 ≤ a / b → a / b ≤ a ∧ clamp a (a / b) = a / b) ∧
  (a / b < 0 → 0 ≤ a + a / b ∧ clamp a (a / b) = a + a / b).
Proof.
  intros Ha Hb.
  pose proof (Z.div_mod a b Hb) as Hdm.
  assert (a / b ≤ a ∧ 0 ≤ a + a / b) as [Hle Hge].
  { destruct (Z.lt_trichotomy b 0) as [?|[?|?]]; [|done|].
    - pose proof (Z.mod_neg_bound a b ltac:(lia)). nia.
    - pose proof (Z.mod_pos_bound a b ltac:(lia)). nia. }
  unfold clamp. destruct (Z.ltb_spec (a / b) 0); split; intros; lia.
Qed.

Lemma layer_input_ok_spec x : layer_input_ok x = true ↔ layer_input x.
Proof.
  unfold layer_input_ok, layer_input.
  destruct (rank x) as [n|]; [|split; [discriminate|by intros ([=] & _)]].
  destruct (decide (n = 4%nat)) as [->|Hn].
  - destruct (channels x) as [c|].
    + rewrite Z.ltb_lt. split; [eauto|]. by intros (_ & c' & [= <-] & ?).
    + split; [discriminate|]. by intros (_ & c' & [=] & _).
  - split; [|intros ([= ?] & _); done].
    do 5 (destruct n as [|n]; try discriminate); try done.
    all: destruct (channels x); discriminate.
Qed.

Lemma dimension_ok_spec n : dimension_ok n = true ↔ dimension n.
Proof.
  unfold dimension_ok, dimension. rewrite andb_true_iff, !Z.ltb_lt. done.
Qed.

Lemma conv2d_inr x f k l2 g t g' :
  conv2d x f k l2 g = inr (t, g') ↔
  layer_input x ∧ dimension f ∧
  t = Conv2d (fresh g) x f k l2 ∧ g' = with_layer g l2.
Proof.
  unfold conv2d. rewrite <-layer_input_ok_spec, <-dimension_ok_spec.
  destruct (layer_input_ok x), (dimension_ok f); cbn; split;
    try discriminate; try (intros (? & ? & _); discriminate).
  - intros [= <- <-]; done.
  - intros (_ & _ & -> & ->); done.
Qed.

Lemma conv2d_transpose_inr x f k st l2 g t g' :
  conv2d_transpose x f k st l2 g = inr (t, g') ↔
  layer_input x ∧ dimension f ∧ 0 < st ∧
  t = Conv2dTranspose (fresh g) x f k st l2 ∧ g' = with_layer g l2.
Proof.
  unfold conv2d_transpose.
  rewrite <-layer_input_ok_spec, <-dimension_ok_spec, <-Z.ltb_lt.
  destruct (layer_input_ok x), (dimension_ok f), (0 <? st); cbn; split;
    try discriminate; try (intros (? & ? & ? & _); discriminate).
  - intros [= <- <-]; done.
  - intros (_ & _ & _ & -> & ->); done.
Qed.

Lemma layer_input_conv3x3 l2 alpha id x f :
  dimension f → layer_input (conv3x3 l2 alpha id x f).
Proof. intros [? ?]. split; [done|]. exists f. done. Qed.

Lemma floordiv_inr a b g k g' :
  floordiv a b g = inr (k, g') ↔ b ≠ 0 ∧ k = a / b ∧ g' = g.
Proof.
  unfold floordiv. destruct (Z.eqb_spec b 0); split.
  - discriminate.
  - intros (? & _); done.
  - intros [= <- <-]; done.
  - intros (_ & -> & ->); done.
Qed.

Lemma add_inr x y g t g' :
  add x y g = inr (t, g') ↔
  broadcastable (channels x) (channels y) = true ∧ t = Add x y ∧ g' = g.
Proof.
  unfold add. destruct (broadcastable _ _); split.
  - intros [= <- <-]; done.
  - intros (_ & -> & ->); done.
  - discriminate.
  - intros (? & _); done.
Qed.

Lemma last_item_inr {A} (xs : list A) g x g' :
  last_item xs g = inr (x, g') ↔ last xs = Some x ∧ g' = g.
Proof.
  unfold last_item. destruct (last xs); split.
  - intros [= <- <-]; done.
  - intros ([= ->] & ->); done.
  - discriminate.
  - intros ([=] & _).
Qed.

Lemma fresh_with_layers n g l2 :
  fresh (with_layers n g l2) = (n + fresh g)%nat.
Proof.
  revert g. induction n as [|n IH]; intros g; [done|].
  cbn [with_layers]. rewrite IH. cbn. lia.
Qed.

Lemma regularization_with_layers n g l2 :
  regularization_losses (with_layers n g l2) =
  regularization_losses g ++ ((λ k, L2 (k + fresh g)%nat l2) <$> seq 0 n).
Proof.
  revert g. induction n as [|n IH]; intros g.
  - cbn. by rewrite app_nil_r.
  - cbn [with_layers]. rewrite IH. cbn [with_layer regularization_losses fresh].
    rewrite <-app_assoc. f_equal. cbn [seq fmap list_fmap app]. f_equal.
    rewrite <-fmap_S_seq, <-list_fmap_compose.
    apply list_fmap_ext. intros _ k _. cbn. f_equal. lia.
Qed.

Lemma with_layers_frame n g l2 :
  losses (with_layers n g l2) = losses g ∧
  summaries (with_layers n g l2) = summaries g.
Proof.
  revert g. induction n as [|n IH]; intros g; [done|].
  cbn [with_layers]. destruct (IH (with_layer g l2)) as [-> ->]. done.
Qed.

Lemma with_layers_add n m g l2 :
  with_layers (n + m) g l2 = with_layers m (with_layers n g l2) l2.
Proof. revert g. induction n as [|n IH]; intros g; [done|]. apply IH. Qed.

Lemma mean_squared_error_inr labels predictions g t g' :
  mean_squared_error labels predictions g = inr (t, g') ↔
  compatible_with predictions labels = true ∧
  t = MeanSquaredError labels predictions ∧
  g' = {| fresh := fresh g;
          regularization_losses := regularization_losses g;
          losses := losses g ++ [t]; summaries := summaries g |}.
Proof.
  unfold mean_squared_error, add_loss. destruct (compatible_with _ _); split.
  - intros [= <- <-]; done.
  - intros (_ & -> & ->); done.
  - discriminate.
  - intros (? & _); done.
Qed.

Lemma absolute_difference_inr labels predictions g t g' :
  absolute_difference labels predictions g = inr (t, g') ↔
  compatible_with predictions labels = true ∧
  t = AbsoluteDifference labels predictions ∧
  g' = {| fresh := fresh g;
          regularization_losses := regularization_losses g;
          losses := losses g ++ [t]; summaries := summaries g |}.
Proof.
  unfold absolute_difference, add_loss. destruct (compatible_with _ _); split.
  - intros [= <- <-]; done.
  - intros (_ & -> & ->); done.
  - discriminate.
  - intros (? & _); done.
Qed.

Lemma add_n_inr xs g t g' :
  add_n xs g = inr (t, g') ↔ xs ≠ [] ∧ t = AddN xs ∧ g' = g.
Proof.
  unfold add_n. destruct xs; split.
  - discriminate.
  - intros (? & _); done.
  - intros [= <- <-]; done.
  - intros (_ & -> & ->); done.
Qed.

Lemma getitem_inr (m : gmap string Tensor) k g v g' :
  getitem m k g = inr (v, g') ↔ m !! k = Some v ∧ g' = g.
Proof.
  unfold getitem. destruct (m !! k); split.
  - intros [= <- <-]; done.
  - intros ([= ->] & ->); done.
  - discriminate.
  - intros ([=] & _).
Qed.

Lemma conv_relu_inr {LearningRate} (self : Idn LearningRate) x f g t g' :
  conv_relu self x f g = inr (t, g') ↔
  layer_input x ∧ dimension f ∧
  t = conv3x3 (weight_decay self) (leaky_slope self) (fresh g) x f ∧
  g' = with_layer g (weight_decay self).
Proof.
  unfold conv_relu. rewrite bind_inr. split.
  - intros (y & g1 & H%conv2d_inr & [= <- <-]).
    destruct H as (? & ? & -> & ->). done.
  - intros (? & ? & -> & ->). eexists _, _. rewrite conv2d_inr. done.
Qed.

Ltac inv_M :=
  repeat match goal with
  | H : (_ ≫= _) _ = inr _ |- _ =>
      apply bind_inr in H; destruct H as (? & ? & ? & H)
  | H : conv_relu _ _ _ _ = inr _ |- _ =>
      apply conv_relu_inr in H; destruct H as (? & ? & -> & ->)
  | H : conv2d _ _ _ _ _ = inr _ |- _ =>
      apply conv2d_inr in H; destruct H as (? & ? & -> & ->)
  | H : conv2d_transpose _ _ _ _ _ _ = inr _ |- _ =>
      apply conv2d_transpose_inr in H; destruct H as (? & ? & ? & -> & ->)
  | H : floordiv _ _ _ = inr _ |- _ =>
      apply floordiv_inr in H; destruct H as (? & -> & ->)
  | H : add _ _ _ = inr _ |- _ =>
      apply add_inr in H; destruct H as (? & -> & ->)
  | H : last_item _ _ = inr _ |- _ =>
      apply last_item_inr in H; destruct H as (? & ->)
  | H : getitem _ _ _ = inr _ |- _ =>
      apply getitem_inr in H; destruct H as (? & ->)
  | H : mean_squared_error _ _ _ = inr _ |- _ =>
      apply mean_squared_error_inr in H; destruct H as (? & -> & ->)
  | H : absolute_difference _ _ _ = inr _ |- _ =>
      apply absolute_difference_inr in H; destruct H as (? & -> & ->)
  | H : add_n _ _ = inr _ |- _ =>
      apply add_n_inr in H; destruct H as (? & -> & ->)
  | H : mret _ _ = inr _ |- _ =>
      apply mret_inr in H; destruct H as (-> & ->)
  | H : inr _ = inr _ |- _ => injection H as <- <-
  end.

(** ** The distillation block *)

Section Block.
Context {LearningRate : Type}.
Implicit Types (self : Idn LearningRate) (g : Graph) (t x inputs : Tensor).

(** When [_make_idn] returns, and what: the input suits a convolution,
    every convolution has a valid width, the slice factor is not zero and
    leaves the remainder a channel, and the residual addition broadcasts. *)
Lemma make_idn_inr self x D3 d s g t g' :
  _make_idn self x D3 d s g = inr (t, g') ↔
  layer_input x ∧ dimension (D3 - d) ∧ dimension (D3 - d - d) ∧
  dimension D3 ∧ s ≠ 0 ∧ 0 < D3 - clamp D3 (D3 / s) ∧ dimension (D3 + d) ∧
  broadcastable (Some (D3 + d))
                (n ← channels x; Some (n + clamp D3 (D3 / s))) = true ∧
  t = distillation_block (weight_decay self) (leaky_slope self) (fresh g)
                         x D3 d s ∧
  g' = with_layers 7 g (weight_decay self).
Proof.
  unfold _make_idn, name_scope. cbn [take drop for_each].
  split.
  - intros H. inv_M.
    repeat match goal with
    | H : layer_input (SliceFrom _ _) |- _ =>
        destruct H as (_ & ? & [= <-] & ?)
    end.
    cbn in *. split_and!; done.
  - intros (Hx & H1 & H2 & H3 & Hs & HP & H6 & Hb & -> & ->).
    assert (Hc : ∀ x f g, layer_input x → dimension f →
      conv_relu self x f g =
      inr (conv3x3 (weight_decay self) (leaky_slope self) (fresh g) x f,
           with_layer g (weight_decay self))).
    { intros. by apply conv_relu_inr. }
    assert (Hf : ∀ g, floordiv D3 s g = inr (D3 / s, g)).
    { intros. by apply floordiv_inr. }
    assert (HP2 : ∀ l2 a i y f, dimension f → f = D3 →
      layer_input (SliceFrom (conv3x3 l2 a i y f) (D3 / s))).
    { intros l2 a i y f _ ->. split; [done|]. eexists. split; [done|]. done. }
    unfold mbind, M_bind.
    repeat (rewrite Hc by (done || by apply layer_input_conv3x3)).
    unfold mret at 1, M_ret at 1. rewrite !Hf.
    rewrite Hc by (done || by apply HP2).
    repeat (rewrite Hc by (done || by apply layer_input_conv3x3)).
    unfold mret at 1, M_ret at 1.
    unfold add, concat. destruct Hx as (Hr & c & Hx & Hpos).
    cbn [channels conv3x3 fmap option_fmap option_map]. rewrite Hx in Hb |- *.
    cbn [mbind option_bind] in Hb |- *. rewrite Hb. unfold mret, M_ret.
    apply conv2d_inr. split_and!; try done.
    split.
    + cbn. by rewrite Hr.
    + cbn. rewrite Hx. cbn. eexists. split; [done|].
      pose proof (clamp_bounds D3 (D3 / s) ltac:(unfold dimension in H3; lia)).
      unfold dimension in H6. destruct (D3 + d =? 1); lia.
Qed.

(** C1: every call of [_make_idn] that returns has built the enhancement
    sub-block -- three stacked 3x3 convolutions each followed by leaky ReLU,
    the split of their result into the retained slice [R] and the remainder
    [P2], three more 3x3 convolutions with leaky ReLU on [P2], and the
    concatenation of the block input with [R] added to that -- followed by
    exactly one 1x1 compression convolution with [D3] filters, whose output
    is returned; the call creates these seven layers and nothing else. *)
Theorem make_idn_builds_distillation_block self inputs D3 d s g t g' :
  _make_idn self inputs D3 d s g = inr (t, g') →
  let l2 := weight_decay self in
  let i := fresh g in
  let conv := λ k x filters,
    LeakyRelu (Conv2d (k + i)%nat x filters 3 l2) (leaky_slope self) in
  let x3 := conv 2%nat (conv 1%nat (conv 0%nat inputs (D3 - d)) (D3 - d - d)) D3 in
  let R := SliceTo x3 (D3 / s) in
  let P2 := SliceFrom x3 (D3 / s) in
  let x6 := conv 5%nat (conv 4%nat (conv 3%nat P2 D3) (D3 - d)) (D3 + d) in
  t = Conv2d (6 + i)%nat (Add x6 (Concat inputs R)) D3 1 l2 ∧
  fresh g' = (7 + i)%nat ∧
  regularization_losses g' =
    regularization_losses g ++ ((λ k, L2 (k + i)%nat l2) <$> seq 0 7) ∧
  losses g' = losses g ∧ summaries g' = summaries g.
Proof.
  intros H. apply make_idn_inr in H.
  destruct H as (_ & _ & _ & _ & _ & _ & _ & _ & -> & ->).
  cbn. rewrite <-!app_assoc. done.
Qed.

(** C5, as amended: in every distillation block the split after the third
    convolution (which has [D3] channels) takes the retained slice
    [R = x3[..., :k]] and the further-processed slice [P2 = x3[..., k:]]
    with [k = D3 // s]; the three later convolutions are fed from [P2]
    alone, [R] only joins the concatenation.  When [k] is not negative (as
    for every [s >= 1]) [R] consists of the first [k] channels and [P2] of
    the remaining [D3 - k]; when [k] is negative the bound counts from the
    end: [R] consists of the first [D3 + k] channels and [P2] of the last
    [- k]. *)
Theorem make_idn_channel_split self inputs D3 d s g t g' :
  _make_idn self inputs D3 d s g = inr (t, g') →
  let l2 := weight_decay self in
  let i := fresh g in
  let conv := λ k x filters,
    LeakyRelu (Conv2d (k + i)%nat x filters 3 l2) (leaky_slope self) in
  let x3 := conv 2%nat (conv 1%nat (conv 0%nat inputs (D3 - d)) (D3 - d - d)) D3 in
  let k := D3 / s in
  let R := SliceTo x3 k in
  let P2 := SliceFrom x3 k in
  channels x3 = Some D3 ∧
  (0 ≤ k → k ≤ D3 ∧ channels R = Some k ∧ channels P2 = Some (D3 - k)) ∧
  (k < 0 →
   0 ≤ D3 + k ∧ channels R = Some (D3 + k) ∧ channels P2 = Some (- k)) ∧
  (1 ≤ s → 0 ≤ k) ∧
  t = Conv2d (6 + i)%nat
        (Add (conv 5%nat (conv 4%nat (conv 3%nat P2 D3) (D3 - d)) (D3 + d))
             (Concat inputs R)) D3 1 l2.
Proof.
  intros H. apply make_idn_inr in H.
  destruct H as (_ & _ & _ & [HD _] & Hs & _ & _ & _ & -> & ->).
  pose proof (retained_size D3 s ltac:(lia) Hs) as (Hpos & Hneg).
  cbn. split_and!; try done.
  - intros Hk. destruct (Hpos Hk) as [? ->].
    split_and!; done.
  - intros Hk. destruct (Hneg Hk) as [? ->].
    split_and!; [done..|]. f_equal. lia.
  - intros. apply Z.div_pos; lia.
Qed.

(** C4, as amended: the residual addition of a block whose input has
    [filters] channels adds the sixth convolution's output, of
    [filters + delta] channels, to the concatenation of the block input with
    the retained slice, of [filters + r] channels, where [r] is the size of
    the retained slice ([filters // slice_factor] whenever
    [slice_factor >= 1]).  It is shape-compatible exactly when [delta = r]
    or one of the two operands has a single channel, which the addition
    broadcasts; [_make_idn] returns a block in no other case.  The defaults
    of the constructor satisfy [delta = filters // slice_factor]. *)
Theorem residual_add_compatible_iff self inputs filters delta slice_factor g :
  channels inputs = Some filters →
  0 ≤ filters → slice_factor ≠ 0 →
  let l2 := weight_decay self in
  let i := fresh g in
  let conv := λ k x n,
    LeakyRelu (Conv2d (k + i)%nat x n 3 l2) (leaky_slope self) in
  let x3 := conv 2%nat (conv 1%nat (conv 0%nat inputs (filters - delta))
                                   (filters - delta - delta)) filters in
  let k := filters / slice_factor in
  let R := SliceTo x3 k in
  let P2 := SliceFrom x3 k in
  let x6 := conv 5%nat (conv 4%nat (conv 3%nat P2 filters) (filters - delta))
                 (filters + delta) in
  let r := if 0 <=? k then k else filters + k in
  channels x6 = Some (filters + delta) ∧
  channels (Concat inputs R) = Some (filters + r) ∧
  (1 ≤ slice_factor → r = filters / slice_factor) ∧
  (broadcastable (channels x6) (channels (Concat inputs R)) = true ↔
   delta = r ∨ filters + delta = 1 ∨ filters + r = 1) ∧
  (∀ t g',
     _make_idn self inputs filters delta slice_factor g = inr (t, g') →
     delta = r ∨ filters + delta = 1 ∨ filters + r = 1) ∧
  (∀ (Kwargs : Type) (super_init : Z → Kwargs → SuperResolution LearningRate)
     scale kwargs,
     let m := __init__ super_init scale None None None None None None None
                       None kwargs in
     d m = D m / s m).
Proof.
  intros Hx HD Hs.
  pose proof (retained_size filters slice_factor HD Hs) as (Hpos & Hneg).
  set (k := filters / slice_factor) in *.
  set (r := if 0 <=? k then k else filters + k).
  assert (clamp filters k = r) as Hclamp.
  { unfold r. destruct (Z.leb_spec 0 k) as [Hk|Hk].
    - by destruct (Hpos Hk).
    - by destruct (Hneg Hk). }
  assert (broadcastable (Some (filters + delta)) (Some (filters + r)) = true ↔
          delta = r ∨ filters + delta = 1 ∨ filters + r = 1) as Hiff.
  { cbn. rewrite !orb_true_iff, !Z.eqb_eq. lia. }
  cbn. rewrite Hx. cbn. fold k. rewrite Hclamp.
  split_and!; try done.
  - intros Hs1. unfold r.
    destruct (Z.leb_spec 0 k) as [Hk|Hk]; [done|].
    assert (0 ≤ k) by (apply Z.div_pos; lia). lia.
  - intros t g' H%make_idn_inr.
    destruct H as (_ & _ & _ & _ & _ & _ & _ & Hb & _).
    rewrite Hx in Hb. cbn [mbind option_bind] in Hb. fold k in Hb.
    rewrite Hclamp in Hb. by apply Hiff.
Qed.

End Block.

Lemma make_idn_builds_distillation_block_witness :
  ∃ t g',
    _make_idn (default_idn 2) (sample_features 64) 64 16 4 empty_graph
      = inr (t, g') ∧
    t = distillation_block (weight_decay (default_idn 2))
          (leaky_slope (default_idn 2)) 0 (sample_features 64) 64 16 4 ∧
    fresh g' = 7%nat.
Proof.
  eexists _, _. split; [reflexivity|].
  destruct (make_idn_builds_distillation_block
              (default_idn 2) (sample_features 64) 64 16 4 empty_graph _ _
              eq_refl) as (Ht & Hf & _).
  split; [exact Ht | exact Hf].
Defined.

Lemma make_idn_channel_split_witness :
  ∃ t g' x3,
    _make_idn (default_idn 2) (sample_features 64) 64 16 4 empty_graph
      = inr (t, g') ∧
    channels x3 = Some 64 ∧
    channels (SliceTo x3 (64 / 4)) = Some 16 ∧
    channels (SliceFrom x3 (64 / 4)) = Some 48.
Proof.
  eexists _, _, _. split; [reflexivity|].
  destruct (make_idn_channel_split
              (default_idn 2) (sample_features 64) 64 16 4 empty_graph _ _
              eq_refl) as (Hx & Hk & _).
  destruct (Hk ltac:(done)) as (_ & HR & HP).
  split_and!; [exact Hx | exact HR | exact HP].
Defined.

(** The claim of C5 as stated fails: with 5 filters, [d = 2] and a slice
    factor of -2 the block is built; the retained slice has 2 channels and
    the further-processed slice 3, where [5 // -2 = -3] would give -3 and
    8. *)
Lemma channel_split_counterexample :
  ∃ x3 g',
    let l2 := weight_decay (default_idn 2) in
    let alpha := leaky_slope (default_idn 2) in
    let R := SliceTo x3 (5 / -2) in
    let P2 := SliceFrom x3 (5 / -2) in
    _make_idn (default_idn 2) (sample_features 5) 5 2 (-2) empty_graph
      = inr (Conv2d 6
               (Add (conv3x3 l2 alpha 5
                       (conv3x3 l2 alpha 4 (conv3x3 l2 alpha 3 P2 5) 3) 7)
                    (Concat (sample_features 5) R)) 5 1 l2, g') ∧
    channels x3 = Some 5 ∧
    channels R = Some 2 ∧ channels P2 = Some 3 ∧
    2 ≠ 5 / -2 ∧ 3 ≠ 5 - 5 / -2.
Proof. eexists _, _. cbv zeta. split_and!; [reflexivity..|done|done]. Qed.

Lemma residual_add_compatible_iff_witness :
  channels (sample_features 64) = Some 64 ∧ 0 ≤ 64 ∧ 4 ≠ 0 ∧
  ∃ x6 RI,
    channels x6 = Some (64 + 16) ∧ channels RI = Some (64 + 64 / 4) ∧
    broadcastable (channels x6) (channels RI) = true.
Proof.
  split_and!; [reflexivity | lia | lia |].
  destruct (residual_add_compatible_iff
              (default_idn 2) (sample_features 64) 64 16 4 empty_graph
              eq_refl ltac:(lia) ltac:(lia))
    as (H6 & HR & _ & H & _).
  eexists _, _. split; [exact H6|]. split; [exact HR|].
  apply H. by left.
Defined.

(** The claim of C4 as stated fails: with 4 filters, [d = -3] and a slice
    factor of 2 the block is built, its residual addition broadcasting one
    channel against six, although [-3] is not [4 // 2]. *)
Lemma residual_add_counterexample :
  ∃ x6 RI g',
    _make_idn (default_idn 2) (sample_features 4) 4 (-3) 2 empty_graph
      = inr (Conv2d 6 (Add x6 RI) 4 1 (weight_decay (default_idn 2)), g') ∧
    channels x6 = Some (4 + -3) ∧
    channels RI = Some (4 + 4 / 2) ∧
    broadcastable (channels x6) (channels RI) = true ∧
    -3 ≠ 4 / 2.
Proof. eexists _, _, _. split_and!; [reflexivity..|done]. Qed.

(** ** The graph *)

Section Graph.
Context {LearningRate : Type}.
Implicit Types (self : Idn LearningRate) (b : SuperResolution LearningRate).
Implicit Types (g : Graph) (t x y : Tensor).
Implicit Types (super : SuperResolution LearningRate → M (SuperResolution LearningRate)).

Lemma make_idn_on_features self x D3 d s g t g' :
  rank x = Some 4%nat →
  channels x = Some D3 →
  _make_idn self x D3 d s g = inr (t, g') ↔
  block_builds D3 d s ∧
  t = distillation_block (weight_decay self) (leaky_slope self) (fresh g)
                         x D3 d s ∧
  g' = with_layers 7 g (weight_decay self).
Proof.
  intros Hr Hx. rewrite make_idn_inr, Hx. unfold block_builds.
  cbn [mbind option_bind]. split.
  - intros (_ & ? & ? & ? & ? & ? & ? & ? & ? & ?). done.
  - intros ((? & ? & HD & ? & ? & ? & ?) & ? & ?).
    split_and!; try done. split; [done|]. exists D3. split; [done|].
    unfold dimension in HD. lia.
Qed.

(** The loop over the distillation blocks, from a [D3]-channel input. *)
Lemma for_range_make_idn self n x D3 d s g y g' :
  rank x = Some 4%nat →
  channels x = Some D3 →
  for_range n (λ x, _make_idn self x D3 d s) x g = inr (y, g') ↔
  (n ≠ 0%nat → block_builds D3 d s) ∧
  y = stacked_blocks (weight_decay self) (leaky_slope self) n (fresh g)
                     x D3 d s ∧
  g' = with_layers (7 * n) g (weight_decay self).
Proof.
  revert x g. induction n as [|n IH]; intros x g Hr Hx.
  - cbn. rewrite mret_inr. split; [intros [-> ->]|intros (_ & -> & ->)]; done.
  - cbn [for_range stacked_blocks]. rewrite bind_inr.
    replace (7 * S n)%nat with (7 + 7 * n)%nat by lia.
    rewrite with_layers_add. split.
    + intros (x1 & g1 & H1 & H2).
      apply (make_idn_on_features _ _ _ _ _ _ _ _ Hr Hx) in H1.
      destruct H1 as (Hok & -> & ->).
      apply IH in H2; [|done..]. destruct H2 as (_ & -> & ->).
      rewrite fresh_with_layers. done.
    + intros (Hok & -> & ->). specialize (Hok ltac:(done)).
      eexists _, _. split.
      * by apply (make_idn_on_features _ _ _ _ _ _ _ _ Hr Hx).
      * apply IH; [done..|]. rewrite fresh_with_layers. done.
Qed.

Lemma channels_stacked_blocks l2 alpha n id x D3 d s :
  channels x = Some D3 →
  channels (stacked_blocks l2 alpha n id x D3 d s) = Some D3.
Proof.
  revert id x. induction n as [|n IH]; intros id x Hx; [done|].
  cbn [stacked_blocks]. by apply IH.
Qed.

Lemma rank_stacked_blocks l2 alpha n id x D3 d s :
  rank x = Some 4%nat →
  rank (stacked_blocks l2 alpha n id x D3 d s) = Some 4%nat.
Proof.
  revert id x. induction n as [|n IH]; intros id x Hx; [done|].
  cbn [stacked_blocks]. by apply IH.
Qed.

(** When [build_graph] returns, and what. *)
Lemma build_graph_inr super self g self' g' :
  build_graph super self g = inr (self', g') ↔
  ∃ b g1 x0,
    super (base self) g = inr (b, g1) ∧
    last (inputs_preproc b) = Some x0 ∧
    layer_input x0 ∧
    dimension (D self) ∧
    (Z.to_nat (blocks self) ≠ 0%nat → block_builds (D self) (d self) (s self)) ∧
    0 < scale b ∧
    self' = outputs_append (with_base self b)
              (idn_graph (weight_decay self) (leaky_slope self) (fresh g1) x0
                 (D self) (d self) (s self) (Z.to_nat (blocks self))
                 (scale b)) ∧
    g' = with_layers (3 + 7 * Z.to_nat (blocks self)) g1 (weight_decay self).
Proof.
  unfold build_graph, name_scope.
  set (n := Z.to_nat (blocks self)).
  assert (∀ x0 i, channels (feature_extraction (weight_decay self)
            (leaky_slope self) i x0 (D self)) = Some (D self)) as Hfe by done.
  assert (∀ x0 i, rank (feature_extraction (weight_decay self)
            (leaky_slope self) i x0 (D self)) = Some 4%nat) as Hfr by done.
  split.
  - intros H. inv_M. cbn [base with_base blocks D d s weight_decay leaky_slope] in *.
    match goal with H : for_range _ _ _ _ = inr _ |- _ =>
      apply for_range_make_idn in H; [|done..]; destruct H as (Hok & -> & ->) end.
    eexists _, _, _. split_and!; try done.
    + fold n. unfold idn_graph. do 2 f_equal.
      rewrite fresh_with_layers. cbn. lia.
    + fold n. replace (3 + 7 * n)%nat with (2 + 7 * n + 1)%nat by lia.
      rewrite !with_layers_add. done.
  - intros (b & g1 & x0 & Hs & Hl & Hc & HD & Hok & Hsc & -> & ->).
    erewrite bind_eq by done. cbn [base with_base blocks D d s weight_decay leaky_slope].
    erewrite bind_eq by (by apply last_item_inr).
    erewrite bind_eq.
    2:{ apply bind_inr. eexists _, _. split; [by apply conv2d_inr|].
        apply bind_inr. eexists _, _. split; [|by apply mret_inr].
        apply conv2d_inr. split_and!; [|done..].
        by apply (layer_input_conv3x3 _ _ _ _ (D self)). }
    erewrite bind_eq.
    2:{ apply for_range_make_idn;
          [apply (Hfr x0 (fresh g1))|apply (Hfe x0 (fresh g1))|]. done. }
    erewrite bind_eq.
    2:{ apply conv2d_transpose_inr. split_and!; [|done..].
        split.
        - apply rank_stacked_blocks, Hfr.
        - exists (D self). split; [|unfold dimension in HD; lia].
          apply channels_stacked_blocks, Hfe. }
    apply mret_inr. split.
    + fold n. unfold idn_graph. do 2 f_equal.
      rewrite fresh_with_layers. cbn. lia.
    + fold n. replace (3 + 7 * n)%nat with (2 + 7 * n + 1)%nat by lia.
      rewrite !with_layers_add. done.
Qed.

(** When [build_loss] returns, and what: the last output must exist and be
    compatible with the single-channel label, and some regularization loss
    must have been collected. *)
Lemma build_loss_inr self g self' g' :
  build_loss self g = inr (self', g') ↔
  ∃ y_pred,
    last (outputs (base self)) = Some y_pred ∧
    compatible_with y_pred
      (Cast (Placeholder (fresh g) uint8 [None; None; None; Some 1]) float32)
      = true ∧
    regularization_losses g ≠ [] ∧
    let p := Placeholder (fresh g) uint8 [None; None; None; Some 1] in
    let y_true := Cast p float32 in
    let mse := MeanSquaredError y_true y_pred in
    let mae := AbsoluteDifference y_true y_pred in
    let regular_loss := AddN (regularization_losses g) in
    let objective := Add (if fine_tune self then mae else mse) regular_loss in
    let op := Minimize (AdamOptimizer (learning_rate (base self))) objective in
    self' =
      metrics_setitem
        (metrics_setitem
           (metrics_setitem
              (metrics_setitem
                 (metrics_setitem (loss_append (label_append self p) op)
                    "mse" mse)
                 "mae" mae)
              "regularization" regular_loss)
           "psnr" (Psnr y_true y_pred 255))
        "ssim" (Ssim y_true y_pred 255) ∧
    g' = {| fresh := S (fresh g);
            regularization_losses := regularization_losses g;
            losses := losses g ++ [mse; mae];
            summaries := summaries g |}.
Proof.
  unfold build_loss, name_scope, placeholder, get_regularization_losses.
  unfold mbind at 1, M_bind at 1.
  cbn [base label label_append with_base outputs fine_tune learning_rate].
  rewrite bind_inr. setoid_rewrite last_item_inr. rewrite last_snoc.
  split.
  - intros (l & g1 & (Hl & ->) & H). injection Hl as <-.
    apply bind_inr in H. destruct H as (y_pred & ? & Hy & H).
    apply last_item_inr in Hy. destruct Hy as (Hy & ->).
    apply bind_inr in H. destruct H as (mse & ? & Hmse & H).
    apply mean_squared_error_inr in Hmse. destruct Hmse as (Hc & -> & ->).
    apply bind_inr in H. destruct H as (mae & ? & Hmae & H).
    apply absolute_difference_inr in Hmae. destruct Hmae as (_ & -> & ->).
    unfold mbind at 1, M_bind at 1 in H. cbn [regularization_losses] in H.
    apply bind_inr in H. destruct H as (reg & ? & Hreg & H).
    apply add_n_inr in Hreg. destruct Hreg as (Hne & -> & ->).
    apply bind_inr in H. destruct H as (objective & ? & Hadd & H).
    apply mret_inr in H. destruct H as (-> & ->).
    exists y_pred. split_and!; try done.
    + destruct (fine_tune self); apply add_inr in Hadd;
        destruct Hadd as (_ & -> & _); done.
    + destruct (fine_tune self); apply add_inr in Hadd;
        destruct Hadd as (_ & _ & ->); cbn; by rewrite <-app_assoc.
  - intros (y_pred & Hy & Hc & Hne & -> & ->).
    eexists _, _. split; [done|].
    erewrite bind_eq by (apply last_item_inr; split; [exact Hy|reflexivity]).
    erewrite bind_eq by (by apply mean_squared_error_inr).
    erewrite bind_eq by (by apply absolute_difference_inr).
    unfold mbind at 1, M_bind at 1. cbn [regularization_losses].
    erewrite bind_eq by (by apply add_n_inr).
    destruct (fine_tune self).
    all: erewrite bind_eq by (by apply add_inr).
    all: apply mret_inr; split; [done|].
    all: cbn; by rewrite <-app_assoc.
Qed.

(** When [build_summary] returns, and what: the five metrics it reads must
    be present. *)
Lemma build_summary_inr self g self' g' :
  build_summary self g = inr (self', g') ↔
  ∃ mse mae reg psnr ssim,
    metrics (base self) !! "mse"%string = Some mse ∧
    metrics (base self) !! "mae"%string = Some mae ∧
    metrics (base self) !! "regularization"%string = Some reg ∧
    metrics (base self) !! "psnr"%string = Some psnr ∧
    metrics (base self) !! "ssim"%string = Some ssim ∧
    self' = self ∧
    g' = {| fresh := fresh g;
            regularization_losses := regularization_losses g;
            losses := losses g;
            summaries := summaries g ++
              [("loss/mse", mse); ("loss/mae", mae); ("loss/weight", reg);
               ("metric/psnr", ReduceMean psnr);
               ("metric/ssim", ReduceMean ssim)]%string |}.
Proof.
  unfold build_summary, summary_scalar. split.
  - intros H. inv_M.
    eexists _, _, _, _, _. split_and!; try done.
    cbn. by rewrite <-!app_assoc.
  - intros (mse & mae & reg & psnr & ssim & H1 & H2 & H3 & H4 & H5 & -> & ->).
    unfold getitem. rewrite H1, H2, H3, H4, H5.
    unfold mbind, M_bind, mret, M_ret. cbn. by rewrite <-!app_assoc.
Qed.

Lemma stacked_blocks_snoc l2 alpha n id x D3 d s :
  stacked_blocks l2 alpha (S n) id x D3 d s =
  distillation_block l2 alpha (7 * n + id)%nat
    (stacked_blocks l2 alpha n id x D3 d s) D3 d s.
Proof.
  revert id x. induction n as [|n IH]; intros id x; [done|].
  etrans; [apply (IH (7 + id)%nat (distillation_block l2 alpha id x D3 d s))|].
  replace (7 * S n + id)%nat with (7 * n + (7 + id))%nat by lia.
  reflexivity.
Qed.

(** C2: a returning [build_graph] has assembled, in this order, the
    feature-extraction stage (two 3x3 convolutions with [filters] channels,
    each followed by leaky ReLU) on the last preprocessed input, then the
    distillation blocks, one [_make_idn] call after another for each of the
    [blocks] rounds of the loop, then a single transposed convolution with
    kernel size 17 and stride [scale], whose result is appended to
    [outputs]. *)
Theorem build_graph_assembles super self g self' g' :
  build_graph super self g = inr (self', g') →
  ∃ b g1 x0,
    super (base self) g = inr (b, g1) ∧
    last (inputs_preproc b) = Some x0 ∧
    let filters := D self in
    let l2 := weight_decay self in
    let alpha := leaky_slope self in
    let i := fresh g1 in
    let n := Z.to_nat (blocks self) in
    let features :=
      LeakyRelu (Conv2d (1 + i)%nat
                   (LeakyRelu (Conv2d i x0 filters 3 l2) alpha)
                   filters 3 l2) alpha in
    let distilled k :=
      stacked_blocks l2 alpha k (2 + i)%nat features filters (d self) (s self) in
    let upsampled :=
      Conv2dTranspose (2 + 7 * n + i)%nat (distilled n) 1 17 (scale b) l2 in
    (0 ≤ blocks self → Z.of_nat n = blocks self) ∧
    (∀ k, (k < n)%nat →
       _make_idn self (distilled k) filters (d self) (s self)
         (with_layers (2 + 7 * k) g1 l2)
       = inr (distilled (S k), with_layers (2 + 7 * S k) g1 l2)) ∧
    outputs (base self') = outputs b ++ [upsampled] ∧
    fresh g' = (3 + 7 * n + i)%nat.
Proof.
  intros H. apply build_graph_inr in H.
  destruct H as (b & g1 & x0 & Hs & Hl & Hc & HD & Hok & _ & -> & ->).
  exists b, g1, x0. split; [done|]. split; [done|]. cbv zeta. split_and!.
  - intros. by apply Z2Nat.id.
  - intros k Hk. rewrite stacked_blocks_snoc.
    apply make_idn_on_features.
    { by apply rank_stacked_blocks. }
    { by apply channels_stacked_blocks. }
    split_and!.
    + apply Hok. lia.
    + rewrite fresh_with_layers. f_equal. lia.
    + replace (2 + 7 * S k)%nat with (2 + 7 * k + 7)%nat by lia.
      by rewrite (with_layers_add (2 + 7 * k) 7).
  - done.
  - apply fresh_with_layers.
Qed.

(** C3: a returning [build_loss] has computed the mean squared error and
    the mean absolute error between the cast label and the last output, PSNR
    and SSIM of the same pair, recorded the four under 'mse', 'mae', 'psnr',
    'ssim' (and the regularization loss under 'regularization'), and
    appended exactly one Adam minimize operation over the training
    objective to [loss]. *)
Theorem build_loss_metrics_and_optimizer self g self' g' :
  build_loss self g = inr (self', g') →
  ∃ y_pred,
    last (outputs (base self)) = Some y_pred ∧
    let y_true :=
      Cast (Placeholder (fresh g) uint8 [None; None; None; Some 1]) float32 in
    let mse := MeanSquaredError y_true y_pred in
    let mae := AbsoluteDifference y_true y_pred in
    let regular_loss := AddN (regularization_losses g) in
    let objective := Add (if fine_tune self then mae else mse) regular_loss in
    metrics (base self') !! "mse"%string = Some mse ∧
    metrics (base self') !! "mae"%string = Some mae ∧
    metrics (base self') !! "psnr"%string = Some (Psnr y_true y_pred 255) ∧
    metrics (base self') !! "ssim"%string = Some (Ssim y_true y_pred 255) ∧
    metrics (base self') !! "regularization"%string = Some regular_loss ∧
    loss (base self') =
      loss (base self) ++
      [Minimize (AdamOptimizer (learning_rate (base self))) objective].
Proof.
  intros H. apply build_loss_inr in H.
  destruct H as (y_pred & Hy & _ & _ & -> & _).
  exists y_pred. split; [done|]. cbn. split_and!; by simplify_map_eq.
Qed.

(** C6: the objective the optimizer minimizes is the mean absolute error
    plus the regularization loss when [fine_tune] is set and the mean squared
    error plus the regularization loss when it is not; 'mse' and 'mae' are
    recorded in both modes.  [fine_tune] is what the constructor was given
    ([False] by default), and [build_graph] leaves it alone. *)
Theorem build_loss_objective self g self' g' :
  build_loss self g = inr (self', g') →
  ∃ mse mae regular_loss objective,
    metrics (base self') !! "mse"%string = Some mse ∧
    metrics (base self') !! "mae"%string = Some mae ∧
    metrics (base self') !! "regularization"%string = Some regular_loss ∧
    last (loss (base self')) =
      Some (Minimize (AdamOptimizer (learning_rate (base self))) objective) ∧
    (∃ y_true y_pred,
       mse = MeanSquaredError y_true y_pred ∧
       mae = AbsoluteDifference y_true y_pred) ∧
    (fine_tune self = true → objective = Add mae regular_loss) ∧
    (fine_tune self = false → objective = Add mse regular_loss) ∧
    (∀ (Kwargs : Type) (super_init : Z → Kwargs → SuperResolution LearningRate)
       scale blocks filters delta slice_factor leaky_slope weight_decay ft
       name kwargs,
       fine_tune (__init__ super_init scale blocks filters delta slice_factor
                           leaky_slope weight_decay ft name kwargs)
       = default false ft) ∧
    (∀ super self0 g0 g1,
       build_graph super self0 g0 = inr (self, g1) →
       fine_tune self = fine_tune self0).
Proof.
  intros H. apply build_loss_inr in H.
  destruct H as (y_pred & Hy & _ & _ & -> & _).
  eexists _, _, _, _. cbn.
  split_and!.
  - by simplify_map_eq.
  - by simplify_map_eq.
  - by simplify_map_eq.
  - by rewrite last_snoc.
  - eauto.
  - by intros ->.
  - by intros ->.
  - done.
  - intros super self0 g0 g1 H. apply build_graph_inr in H.
    destruct H as (? & ? & ? & _ & _ & _ & _ & _ & _ & -> & _). done.
Qed.

(** C7: a returning [build_summary] has published exactly five scalar
    summaries -- 'loss/mse', 'loss/mae' and 'loss/weight' from the metrics
    'mse', 'mae' and 'regularization', 'metric/psnr' and 'metric/ssim' as the
    means of the metrics 'psnr' and 'ssim' -- and nothing else: the model and
    the rest of the graph are as before. *)
Theorem build_summary_publishes self g self' g' :
  build_summary self g = inr (self', g') →
  ∃ mse mae reg psnr ssim,
    metrics (base self) !! "mse"%string = Some mse ∧
    metrics (base self) !! "mae"%string = Some mae ∧
    metrics (base self) !! "regularization"%string = Some reg ∧
    metrics (base self) !! "psnr"%string = Some psnr ∧
    metrics (base self) !! "ssim"%string = Some ssim ∧
    summaries g' =
      summaries g ++
      [("loss/mse", mse); ("loss/mae", mae); ("loss/weight", reg);
       ("metric/psnr", ReduceMean psnr);
       ("metric/ssim", ReduceMean ssim)]%string ∧
    self' = self ∧
    fresh g' = fresh g ∧
    regularization_losses g' = regularization_losses g ∧
    losses g' = losses g.
Proof.
  intros H. apply build_summary_inr in H.
  destruct H as (mse & mae & reg & psnr & ssim & ? & ? & ? & ? & ? & -> & ->).
  exists mse, mae, reg, psnr, ssim. split_and!; done.
Qed.


(** C9: on an instance of the class the three lifecycle hooks
    [build_graph], [build_loss] and [build_summary] resolve to the methods
    of this class, whatever the base class defines under those names; the
    class body defines nothing else but the constructor and the helper
    [_make_idn], so every other name resolves as in the base class.
    [build_graph] runs the base class's [build_graph] first: when that
    raises, so does the hook; otherwise the hook builds its own layers on
    what the base call left -- on the last input the call supplied, with
    layer identities and regularization losses that follow those of the
    base class -- and appends their output. *)
Theorem class_overrides_three_hooks
    {Kwargs : Type} (super_init : Z → Kwargs → SuperResolution LearningRate)
    super (base_body : list (string * method LearningRate Kwargs)) :
  let cls := InformationDistillationNetwork super_init super in
  resolve cls base_body "build_graph" = Some (Hook (build_graph super)) ∧
  resolve cls base_body "build_loss" = Some (Hook build_loss) ∧
  resolve cls base_body "build_summary" = Some (Hook build_summary) ∧
  resolve cls base_body "__init__" = Some (Constructor (__init__ super_init)) ∧
  resolve cls base_body "_make_idn" = Some (Helper _make_idn) ∧
  (∀ name,
     name ∉ ["__init__"; "build_graph"; "build_loss"; "build_summary";
             "_make_idn"]%string →
     resolve cls base_body name = class_lookup base_body name) ∧
  (∀ name,
     name ∈ lifecycle_hooks ↔ ∃ f, class_lookup cls name = Some (Hook f)) ∧
  (∀ self g e, super (base self) g = inl e →
     build_graph super self g = inl e) ∧
  (∀ self g self' g', build_graph super self g = inr (self', g') →
     ∃ b g1 x0,
       let n := Z.to_nat (blocks self) in
       super (base self) g = inr (b, g1) ∧
       last (inputs_preproc b) = Some x0 ∧
       self' = outputs_append (with_base self b)
                 (idn_graph (weight_decay self) (leaky_slope self) (fresh g1)
                    x0 (D self) (d self) (s self) n (scale b)) ∧
       fresh g' = (3 + 7 * n + fresh g1)%nat ∧
       regularization_losses g' =
         regularization_losses g1 ++
         ((λ k, L2 (k + fresh g1)%nat (weight_decay self)) <$>
            seq 0 (3 + 7 * n))).
Proof.
  cbv zeta. split_and!; try reflexivity.
  - intros name Hn. unfold resolve, InformationDistillationNetwork.
    cbn [class_lookup].
    repeat (destruct (decide (_ = name)) as [<-|?];
            [exfalso; apply Hn; set_solver|]).
    done.
  - intros name. unfold lifecycle_hooks, InformationDistillationNetwork.
    cbn [class_lookup]. split.
    + intros Hn.
      repeat (apply elem_of_cons in Hn as [->|Hn]; [cbn; eauto|]).
      by apply elem_of_nil in Hn.
    + intros [f Hf].
      repeat (destruct (decide (_ = name)) as [<-|?];
              [first [discriminate Hf | set_solver]|]).
      discriminate.
  - intros self g e H. unfold build_graph, name_scope. by apply bind_inl.
  - intros self g self' g' H. apply build_graph_inr in H.
    destruct H as (b & g1 & x0 & Hs & Hl & _ & _ & _ & _ & -> & ->).
    exists b, g1, x0. split_and!; try done.
    + apply fresh_with_layers.
    + apply regularization_with_layers.
Qed.

(** C10: the tensor a returning [build_graph] appends comes from the
    transposed convolution with one output filter and so has exactly one
    channel; the label a returning [build_loss] appends is a uint8
    placeholder of four dimensions, the last of size one, and every loss and
    metric is computed on its cast to float32. *)
Theorem output_and_label_single_channel :
  (∀ super self g self' g',
     build_graph super self g = inr (self', g') →
     ∃ id x strides l2,
       last (outputs (base self')) =
         Some (Conv2dTranspose id x 1 17 strides l2) ∧
       channels (Conv2dTranspose id x 1 17 strides l2) = Some 1) ∧
  (∀ self g self' g',
     build_loss self g = inr (self', g') →
     ∃ id shape y_pred objective,
       let p := Placeholder id uint8 shape in
       let y_true := Cast p float32 in
       last (label (base self')) = Some p ∧
       shape = [None; None; None; Some 1] ∧
       length shape = 4%nat ∧
       channels p = Some 1 ∧
       last (outputs (base self)) = Some y_pred ∧
       metrics (base self') !! "mse"%string
         = Some (MeanSquaredError y_true y_pred) ∧
       metrics (base self') !! "mae"%string
         = Some (AbsoluteDifference y_true y_pred) ∧
       metrics (base self') !! "psnr"%string
         = Some (Psnr y_true y_pred 255) ∧
       metrics (base self') !! "ssim"%string
         = Some (Ssim y_true y_pred 255) ∧
       last (loss (base self')) =
         Some (Minimize (AdamOptimizer (learning_rate (base self)))
                        objective) ∧
       (objective = Add (MeanSquaredError y_true y_pred)
                        (AddN (regularization_losses g)) ∨
        objective = Add (AbsoluteDifference y_true y_pred)
                        (AddN (regularization_losses g))) ∧
       losses g' = losses g ++ [MeanSquaredError y_true y_pred;
                                AbsoluteDifference y_true y_pred]).
Proof.
  split.
  - intros super self g self' g' H. apply build_graph_inr in H.
    destruct H as (b & g1 & x0 & _ & _ & _ & _ & _ & _ & -> & _).
    eexists _, _, _, _. cbn. rewrite last_snoc. done.
  - intros self g self' g' H. apply build_loss_inr in H.
    destruct H as (y_pred & Hy & _ & _ & -> & ->).
    exists (fresh g), [None; None; None; Some 1], y_pred.
    eexists. cbn. rewrite !last_snoc.
    split_and!; try done; try (by simplify_map_eq).
    destruct (fine_tune self); eauto.
Qed.

End Graph.

(** ** The theorems at the sample model *)

Lemma build_graph_assembles_witness :
  ∃ self' g',
    build_graph sample_build_graph (default_idn 2) empty_graph
      = inr (self', g') ∧
    length (outputs (base self')) = 1%nat ∧
    fresh g' = 32%nat.
Proof.
  destruct (build_graph sample_build_graph (default_idn 2) empty_graph)
    as [e|[m g]] eqn:H; [by vm_compute in H|].
  exists m, g. split; [done|].
  destruct (build_graph_assembles _ _ _ _ _ H)
    as (b & g1 & x0 & Hs & _ & _ & _ & Ho & Hf).
  vm_compute in Hs. injection Hs as <- <-.
  split; [by rewrite Ho | exact Hf].
Defined.

Lemma build_loss_metrics_and_optimizer_witness :
  ∃ self' g',
    build_loss sample_with_output sample_graph = inr (self', g') ∧
    length (loss (base self')) = 1%nat ∧
    is_Some (metrics (base self') !! "psnr"%string) ∧
    is_Some (metrics (base self') !! "ssim"%string).
Proof.
  destruct (build_loss sample_with_output sample_graph)
    as [e|[m g]] eqn:H; [by vm_compute in H|].
  exists m, g. split; [done|].
  destruct (build_loss_metrics_and_optimizer _ _ _ _ H)
    as (y & _ & _ & _ & Hp & Hs & _ & Hl).
  split_and!; [by rewrite Hl | by eexists | by eexists].
Defined.

Lemma build_loss_objective_witness :
  ∃ self' g' mse regular_loss,
    build_loss sample_with_output sample_graph = inr (self', g') ∧
    metrics (base self') !! "mse"%string = Some mse ∧
    last (loss (base self')) =
      Some (Minimize (AdamOptimizer (learning_rate (base sample_with_output)))
                     (Add mse regular_loss)).
Proof.
  destruct (build_loss sample_with_output sample_graph)
    as [e|[m g]] eqn:H; [by vm_compute in H|].
  destruct (build_loss_objective _ _ _ _ H)
    as (mse & mae & reg & obj & Hmse & _ & _ & Hl & _ & _ & Hf & _).
  exists m, g, mse, reg. split; [done|]. split; [done|].
  by rewrite Hl, (Hf eq_refl).
Defined.

Lemma build_summary_publishes_witness :
  ∃ self' g',
    build_summary sample_with_metrics empty_graph = inr (self', g') ∧
    length (summaries g') = 5%nat ∧
    self' = sample_with_metrics.
Proof.
  destruct (build_summary sample_with_metrics empty_graph)
    as [e|[m g]] eqn:H; [by vm_compute in H|].
  exists m, g. split; [done|].
  destruct (build_summary_publishes _ _ _ _ H)
    as (? & ? & ? & ? & ? & _ & _ & _ & _ & _ & Hs & Hm & _).
  split; [by rewrite Hs | exact Hm].
Defined.


Lemma output_and_label_single_channel_witness :
  ∃ self1 g1 self2 g2 t p,
    build_graph sample_build_graph (default_idn 2) empty_graph
      = inr (self1, g1) ∧
    build_loss self1 g1 = inr (self2, g2) ∧
    last (outputs (base self1)) = Some t ∧ channels t = Some 1 ∧
    last (label (base self2)) = Some p ∧ channels p = Some 1.
Proof.
  destruct (@output_and_label_single_channel float) as (Hgraph & Hloss).
  destruct (build_graph sample_build_graph (default_idn 2) empty_graph)
    as [e|[m1 g1]] eqn:H1; [by vm_compute in H1|].
  destruct (build_loss m1 g1) as [e|[m2 g2]] eqn:H2.
  { vm_compute in H1. injection H1 as <- <-. by vm_compute in H2. }
  destruct (Hgraph _ _ _ _ _ H1) as (id & x & st & l2 & Ho & Hc).
  destruct (Hloss _ _ _ _ H2)
    as (id' & shape & y & obj & Hl & _ & _ & Hp & _).
  eexists m1, g1, m2, g2, _, _. split_and!; done.
Defined.

(** ** Errors, edge cases and composition *)

Section Extra.
Context {LearningRate : Type}.
Implicit Types (self : Idn LearningRate) (b : SuperResolution LearningRate).
Implicit Types (g : Graph) (t x y inputs : Tensor).
Implicit Types (super : SuperResolution LearningRate → M (SuperResolution LearningRate)).

(** X1: with a slice factor of zero no block is ever built: [_make_idn]
    never returns, and [build_graph] never returns when it has at least
    one block to build. *)
Theorem zero_slice_factor_never_returns :
  (∀ self inputs D3 d g,
     returns (_make_idn self inputs D3 d 0 g) = false) ∧
  (∀ super self g,
     1 ≤ blocks self → s self = 0 →
     returns (build_graph super self g) = false).
Proof.
  split.
  - intros self inputs D3 d g.
    destruct (_make_idn self inputs D3 d 0 g) as [e|[t g']] eqn:H; [done|].
    apply make_idn_inr in H. by destruct H as (_ & _ & _ & _ & ? & _).
  - intros super self g Hb Hs.
    destruct (build_graph super self g) as [e|[self' g']] eqn:H; [done|].
    apply build_graph_inr in H.
    destruct H as (b & g1 & x0 & _ & _ & _ & _ & Hok & _).
    destruct Hok as (_ & _ & _ & ? & _); [lia|]. done.
Qed.

(** X4: with [blocks <= 0] the loop body never runs, so [d] and [s] are
    not used: a returning [build_graph] has built exactly three layers,
    the transposed convolution directly over the feature extraction stage,
    and returns the same graph and output for any other [d] and [s]. *)
Theorem build_graph_no_blocks super self g self' g' delta slice_factor :
  blocks self ≤ 0 →
  build_graph super self g = inr (self', g') →
  ∃ b g1 x0,
    super (base self) g = inr (b, g1) ∧
    last (inputs_preproc b) = Some x0 ∧
    let l2 := weight_decay self in
    let i := fresh g1 in
    let features :=
      LeakyRelu (Conv2d (1 + i)%nat
                   (LeakyRelu (Conv2d i x0 (D self) 3 l2) (leaky_slope self))
                   (D self) 3 l2) (leaky_slope self) in
    outputs (base self') =
      outputs b ++ [Conv2dTranspose (2 + i)%nat features 1 17 (scale b) l2] ∧
    fresh g' = (3 + i)%nat ∧
    build_graph super (block_parameters_assign self delta slice_factor) g
    = inr (block_parameters_assign self' delta slice_factor, g').
Proof.
  intros Hb H. apply build_graph_inr in H.
  destruct H as (b & g1 & x0 & Hs & Hl & Hc & HD & _ & Hsc & -> & ->).
  assert (Z.to_nat (blocks self) = 0%nat) as Hn by lia.
  exists b, g1, x0. rewrite Hn.
  split; [done|]. split; [done|]. cbv zeta. split_and!; [done..|].
  apply build_graph_inr. exists b, g1, x0.
  cbn [base blocks D d s weight_decay leaky_slope block_parameters_assign].
  rewrite Hn. split_and!; done.
Qed.

(** X5: when the base class leaves [inputs_preproc] empty, [build_graph]
    raises [IndexError] and builds nothing. *)
Theorem build_graph_no_input super self g b g1 :
  super (base self) g = inr (b, g1) →
  inputs_preproc b = [] →
  build_graph super self g = inl IndexError.
Proof.
  intros Hs Hi. unfold build_graph, name_scope.
  erewrite bind_eq by done. cbn [base with_base].
  apply bind_inl. unfold last_item. by rewrite Hi.
Qed.

(** X7: the blocks stack: a block returns as many channels as it takes,
    so when [build_graph] returns with at least one block it returns with
    any number [n] of them, having built [3 + 7 * n] layers after the base
    class. *)
Theorem build_graph_any_depth super self g self' g' n :
  1 ≤ blocks self →
  build_graph super self g = inr (self', g') →
  ∃ b g1 self'' g'',
    super (base self) g = inr (b, g1) ∧
    build_graph super (blocks_assign self n) g = inr (self'', g'') ∧
    fresh g'' = (3 + 7 * Z.to_nat n + fresh g1)%nat ∧
    length (outputs (base self'')) = length (outputs (base self')).
Proof.
  intros Hb H. apply build_graph_inr in H.
  destruct H as (b & g1 & x0 & Hs & Hl & Hc & HD & Hok & Hsc & -> & ->).
  specialize (Hok ltac:(lia)).
  exists b, g1. eexists _, _. split; [done|]. split.
  - apply build_graph_inr. exists b, g1, x0.
    cbn [base blocks D d s weight_decay leaky_slope blocks_assign].
    split_and!; done.
  - split; [apply fresh_with_layers|].
    cbn. by rewrite !length_app.
Qed.

(** X8: a returning [build_graph] has added, after the base class, exactly
    one regularization loss per layer it created -- [3 + 7 * blocks] of
    them, in the order of creation and all of weight [weight_decay] -- and
    has left the losses and summaries of the graph alone. *)
Theorem build_graph_regularizes_every_layer super self g self' g' :
  build_graph super self g = inr (self', g') →
  ∃ b g1,
    super (base self) g = inr (b, g1) ∧
    regularization_losses g' =
      regularization_losses g1 ++
      ((λ k, L2 (k + fresh g1)%nat (weight_decay self)) <$>
         seq 0 (3 + 7 * Z.to_nat (blocks self))) ∧
    losses g' = losses g1 ∧
    summaries g' = summaries g1.
Proof.
  intros H. apply build_graph_inr in H.
  destruct H as (b & g1 & x0 & Hs & _ & _ & _ & _ & _ & _ & ->).
  exists b, g1. split; [done|].
  rewrite regularization_with_layers.
  destruct (with_layers_frame (3 + 7 * Z.to_nat (blocks self)) g1
              (weight_decay self)) as [-> ->].
  done.
Qed.

(** X9: the hooks compose: on the model and graph a returning
    [build_graph] leaves, [build_loss] returns (the output has one channel
    like the label, and the layers have supplied regularization losses), and
    on what that leaves [build_summary] returns, publishing its five
    summaries. *)
Theorem lifecycle_runs_through super self g self1 g1 :
  build_graph super self g = inr (self1, g1) →
  ∃ self2 g2 g3,
    build_loss self1 g1 = inr (self2, g2) ∧
    build_summary self2 g2 = inr (self2, g3) ∧
    length (summaries g3) = (5 + length (summaries g1))%nat.
Proof.
  intros H. apply build_graph_inr in H.
  destruct H as (b & g0 & x0 & Hs & _ & _ & _ & _ & _ & -> & ->).
  eexists _, _, _. split; [|split].
  - apply build_loss_inr. eexists. split; [|split; [|split; [|done]]].
    + cbn. by rewrite last_snoc.
    + done.
    + rewrite regularization_with_layers. cbn [seq fmap list_fmap Nat.add].
      intros Hnil. apply app_eq_nil in Hnil as [_ ?]. done.
  - apply build_summary_inr. eexists _, _, _, _, _. cbn [base metrics].
    split_and!; first [by simplify_map_eq | done].
  - cbn. rewrite length_app. cbn. lia.
Qed.

(** X10: [build_loss] raises [IndexError] when [outputs] is empty, and
    [ValueError] when the last output is known not to have the label's four
    axes or its single channel, or when no regularization loss has been
    collected. *)
Theorem build_loss_raises self g :
  (outputs (base self) = [] → build_loss self g = inl IndexError) ∧
  (∀ y c, last (outputs (base self)) = Some y →
     channels y = Some c → c ≠ 1 →
     build_loss self g = inl ValueError) ∧
  (∀ y n, last (outputs (base self)) = Some y →
     rank y = Some n → n ≠ 4%nat →
     build_loss self g = inl ValueError) ∧
  (∀ y, last (outputs (base self)) = Some y →
     regularization_losses g = [] →
     build_loss self g = inl ValueError).
Proof.
  set (p := Placeholder (fresh g) uint8 [None; None; None; Some 1]).
  assert (∀ (k : Tensor → M (Idn LearningRate)) g0,
            (last_item (label (base self) ++ [p]) ≫= k) g0 = k p g0) as Hlbl.
  { intros k g0. apply bind_eq, last_item_inr. by rewrite last_snoc. }
  assert (∀ y, last (outputs (base self)) = Some y →
            compatible_with y (cast p float32) = false →
            build_loss self g = inl ValueError) as Hbad.
  { intros y Hy Hc. unfold build_loss, name_scope, placeholder.
    unfold mbind at 1, M_bind at 1.
    cbn [base label label_append with_base outputs].
    fold p. rewrite Hlbl.
    erewrite bind_eq by (apply last_item_inr; split; [exact Hy|done]).
    apply bind_inl. unfold mean_squared_error. by rewrite Hc. }
  split_and!.
  - intros Ho. unfold build_loss, name_scope, placeholder.
    unfold mbind at 1, M_bind at 1.
    cbn [base label label_append with_base outputs].
    fold p. rewrite Hlbl. apply bind_inl.
    unfold last_item. by rewrite Ho.
  - intros y c Hy Hc Hne. apply (Hbad y Hy).
    unfold compatible_with. rewrite Hc. cbn.
    apply andb_false_iff. right. by apply Z.eqb_neq.
  - intros y n Hy Hr Hne. apply (Hbad y Hy).
    unfold compatible_with. rewrite Hr. cbn.
    apply andb_false_iff. left. by apply Nat.eqb_neq.
  - intros y Hy Hr.
    destruct (compatible_with y (cast p float32)) eqn:Hc; [|by apply (Hbad y)].
    unfold build_loss, name_scope, placeholder.
    unfold mbind at 1, M_bind at 1.
    cbn [base label label_append with_base outputs].
    fold p. rewrite Hlbl.
    erewrite bind_eq by (apply last_item_inr; split; [exact Hy|done]).
    erewrite bind_eq by (by apply mean_squared_error_inr).
    erewrite bind_eq by (by apply absolute_difference_inr).
    erewrite bind_eq by reflexivity.
    apply bind_inl. cbn [regularization_losses]. by rewrite Hr.
Qed.

(** X11: [build_summary] raises exactly when one of the five metrics it
    reads is missing, and then it raises [KeyError]. *)
Theorem build_summary_raises self g e :
  build_summary self g = inl e ↔
  e = KeyError ∧
  (metrics (base self) !! "mse"%string = None ∨
   metrics (base self) !! "mae"%string = None ∨
   metrics (base self) !! "regularization"%string = None ∨
   metrics (base self) !! "psnr"%string = None ∨
   metrics (base self) !! "ssim"%string = None).
Proof.
  unfold build_summary, summary_scalar, getitem.
  unfold mbind, M_bind, mret, M_ret, raise.
  destruct (metrics (base self) !! "mse"%string) eqn:H1;
    [|split; [intros [= <-]; auto|by intros [-> _]]].
  destruct (metrics (base self) !! "mae"%string) eqn:H2;
    [|split; [intros [= <-]; auto|by intros [-> _]]].
  destruct (metrics (base self) !! "regularization"%string) eqn:H3;
    [|split; [intros [= <-]; auto|by intros [-> _]]].
  destruct (metrics (base self) !! "psnr"%string) eqn:H4;
    [|split; [intros [= <-]; auto 6|by intros [-> _]]].
  destruct (metrics (base self) !! "ssim"%string) eqn:H5;
    [|split; [intros [= <-]; auto 6|by intros [-> _]]].
  split; [discriminate|]. intros [_ [?|[?|[?|[?|?]]]]]; discriminate.
Qed.

(** X12: [fine_tune] only selects the objective: with the flag set
    either way [build_loss] returns on the same inputs, leaves the same
    graph, label, outputs and metrics, and appends one operation to
    [loss]. *)
Theorem build_loss_fine_tune_only_objective self g self' g' ft :
  build_loss self g = inr (self', g') →
  ∃ self'' op,
    build_loss (fine_tune_assign self ft) g = inr (self'', g') ∧
    metrics (base self'') = metrics (base self') ∧
    label (base self'') = label (base self') ∧
    outputs (base self'') = outputs (base self') ∧
    loss (base self'') = loss (base self) ++ [op] ∧
    fine_tune self'' = ft.
Proof.
  intros H. apply build_loss_inr in H.
  destruct H as (y_pred & Hy & Hc & Hne & -> & ->).
  eexists _, _. split.
  - apply build_loss_inr. exists y_pred. split_and!; done.
  - cbn. split_and!; done.
Qed.

(** X13: calling [build_loss] again on what it returned succeeds: a
    second, distinct label placeholder and a second minimize operation are
    appended, the metric keys stay the same and the metrics now refer to
    the new label. *)
Theorem build_loss_twice self g self1 g1 :
  build_loss self g = inr (self1, g1) →
  ∃ self2 g2 y_pred op1 op2,
    build_loss self1 g1 = inr (self2, g2) ∧
    let p1 := Placeholder (fresh g) uint8 [None; None; None; Some 1] in
    let p2 := Placeholder (S (fresh g)) uint8 [None; None; None; Some 1] in
    label (base self2) = label (base self) ++ [p1; p2] ∧
    p1 ≠ p2 ∧
    loss (base self2) = loss (base self) ++ [op1; op2] ∧
    dom (metrics (base self2)) = dom (metrics (base self1)) ∧
    last (outputs (base self)) = Some y_pred ∧
    metrics (base self2) !! "mse"%string
      = Some (MeanSquaredError (Cast p2 float32) y_pred) ∧
    outputs (base self2) = outputs (base self).
Proof.
  intros H. apply build_loss_inr in H.
  destruct H as (y_pred & Hy & Hc & Hne & -> & ->).
  eexists _, _, y_pred, _, _. split.
  - apply build_loss_inr. exists y_pred. split_and!; done.
  - cbn. rewrite <-!app_assoc. split_and!; try done.
    + intros [= ?]. lia.
    + rewrite !dom_insert_L. set_solver.
    + by simplify_map_eq.
Qed.

End Extra.

Lemma build_graph_no_blocks_witness :
  ∃ self' g',
    build_graph sample_build_graph
      (__init__ sample_init 3 (Some 0) None (Some 5) (Some 0) None None
                None None tt) empty_graph
    = inr (self', g') ∧
    build_graph sample_build_graph
      (__init__ sample_init 3 (Some 0) None (Some 16) (Some 4) None None
                None None tt) empty_graph
    = inr (block_parameters_assign self' 16 4, g') ∧
    fresh g' = 4%nat.
Proof.
  destruct (build_graph sample_build_graph
      (__init__ sample_init 3 (Some 0) None (Some 5) (Some 0) None None
                None None tt) empty_graph) as [e|[m g]] eqn:H;
    [by vm_compute in H|].
  exists m, g. split; [done|].
  destruct (build_graph_no_blocks sample_build_graph
      (__init__ sample_init 3 (Some 0) None (Some 5) (Some 0) None None
                None None tt) empty_graph m g 16 4 ltac:(done) H)
    as (b & g1 & x0 & Hs & _ & _ & Hf & Hb).
  split; [exact Hb|].
  vm_compute in Hs. injection Hs as <- <-. exact Hf.
Defined.

Lemma build_graph_no_input_witness :
  build_graph (λ b, mret b) (default_idn 2) empty_graph = inl IndexError.
Proof.
  eapply (build_graph_no_input (λ b, mret b) (default_idn 2) empty_graph);
    reflexivity.
Defined.

Lemma build_graph_any_depth_witness :
  ∃ self' g' self'' g'',
    build_graph sample_build_graph (default_idn 2) empty_graph
      = inr (self', g') ∧
    build_graph sample_build_graph (blocks_assign (default_idn 2) 9)
      empty_graph = inr (self'', g'') ∧
    fresh g'' = 67%nat.
Proof.
  destruct (build_graph sample_build_graph (default_idn 2) empty_graph)
    as [e|[m g]] eqn:H; [by vm_compute in H|].
  destruct (build_graph_any_depth sample_build_graph (default_idn 2)
              empty_graph m g 9 ltac:(done) H)
    as (b & g1 & m' & g' & Hs & Hb & Hf & _).
  exists m, g, m', g'. split; [done|]. split; [exact Hb|].
  vm_compute in Hs. injection Hs as <- <-. exact Hf.
Defined.

Lemma build_graph_regularizes_every_layer_witness :
  ∃ self' g',
    build_graph sample_build_graph (default_idn 2) empty_graph
      = inr (self', g') ∧
    length (regularization_losses g') = 31%nat.
Proof.
  destruct (build_graph sample_build_graph (default_idn 2) empty_graph)
    as [e|[m g]] eqn:H; [by vm_compute in H|].
  exists m, g. split; [done|].
  destruct (build_graph_regularizes_every_layer _ _ _ _ _ H)
    as (b & g1 & Hs & Hr & _).
  vm_compute in Hs. injection Hs as <- <-.
  by rewrite Hr.
Defined.

Lemma lifecycle_runs_through_witness :
  ∃ self1 g1 self2 g2 g3,
    build_graph sample_build_graph (default_idn 2) empty_graph
      = inr (self1, g1) ∧
    build_loss self1 g1 = inr (self2, g2) ∧
    build_summary self2 g2 = inr (self2, g3) ∧
    length (summaries g3) = 5%nat.
Proof.
  destruct (build_graph sample_build_graph (default_idn 2) empty_graph)
    as [e|[m1 g1]] eqn:H; [by vm_compute in H|].
  destruct (lifecycle_runs_through _ _ _ _ _ H)
    as (m2 & g2 & g3 & Hl & Hs & Hn).
  exists m1, g1, m2, g2, g3. split_and!; try done.
  rewrite Hn. vm_compute in H. by injection H as <- <-.
Defined.

Lemma build_loss_fine_tune_only_objective_witness :
  ∃ self' g' self'',
    build_loss sample_with_output sample_graph = inr (self', g') ∧
    build_loss (fine_tune_assign sample_with_output true) sample_graph
      = inr (self'', g') ∧
    metrics (base self'') = metrics (base self') ∧
    fine_tune self'' = true.
Proof.
  destruct (build_loss sample_with_output sample_graph)
    as [e|[m g]] eqn:H; [by vm_compute in H|].
  destruct (build_loss_fine_tune_only_objective _ _ _ _ true H)
    as (m' & op & Hb & Hm & _ & _ & _ & Hf).
  exists m, g, m'. split_and!; done.
Defined.

Lemma build_loss_twice_witness :
  ∃ self1 g1 self2 g2,
    build_loss sample_with_output sample_graph = inr (self1, g1) ∧
    build_loss self1 g1 = inr (self2, g2) ∧
    length (label (base self2)) = 2%nat ∧
    length (loss (base self2)) = 2%nat.
Proof.
  destruct (build_loss sample_with_output sample_graph)
    as [e|[m g]] eqn:H; [by vm_compute in H|].
  destruct (build_loss_twice _ _ _ _ H)
    as (m2 & g2 & y & op1 & op2 & Hb & Hl & _ & Hls & _).
  exists m, g, m2, g2. split_and!; try done.
  - by rewrite Hl.
  - by rewrite Hls.
Defined.
